(** * redis-view: namespace trie, tree renderer and value formatter

    A shallow embedding of [main.go], in its variant with the [--sep] and
    [--only-keys] flags (the earlier variant splits on the constant [":"]
    and formats with a two-space unit), and the properties of its trie
    construction, its rendering walk and its value formatting.

    The definitions come first: the Go library functions the program
    calls, then the program.  The lemmas and the theorems follow, by
    component.

    Go strings are byte sequences: they are modelled by [string] (a list of
    [ascii], one per byte).  A [[]byte] is a list of [Z] in [0, 256).  A Go
    [map[string]T] is a [gmap string T]; a [nil] map is [None]. *)

From Stdlib Require Import ZArith Ascii String.
From Stdlib Require Import Floats.SpecFloat.
From stdpp Require Import gmap strings list sorting pretty.

Set Warnings "-register-all".
Local Open Scope Z_scope.

(** ** Bytes and strings *)

Definition byteOf (c : ascii) : Z := Z.of_N (N_of_ascii c).
Definition asciiOf (b : Z) : ascii := ascii_of_N (Z.to_N b).

(** [[]byte(s)] and [string(bs)]. *)
Fixpoint bytesOf (s : string) : list Z :=
  match s with
  | EmptyString => []
  | String c s' => byteOf c :: bytesOf s'
  end.

Fixpoint stringOf (bs : list Z) : string :=
  match bs with
  | [] => EmptyString
  | b :: bs' => String (asciiOf b) (stringOf bs')
  end.

(** [s[:n]] and [s[n:]] (clipped at the end of [s]). *)
Fixpoint strTake (n : nat) (s : string) : string :=
  match n, s with
  | S n', String c s' => String c (strTake n' s')
  | _, _ => EmptyString
  end.

Fixpoint strDrop (n : nat) (s : string) : string :=
  match n, s with
  | S n', String _ s' => strDrop n' s'
  | _, _ => s
  end.

(** ** The Go library functions the program calls *)

Module utf8.

Definition between (lo hi : Z) (c : ascii) : bool :=
  (lo <=? byteOf c) && (byteOf c <=? hi).

(** The width in bytes of the first rune of [s], as computed by
    [utf8.DecodeRuneInString]: 1 to 4 for a well-formed sequence, 1 for a
    byte that starts no well-formed sequence, 0 for the empty string. *)
Definition runeWidth (s : string) : nat :=
  match s with
  | EmptyString => 0%nat
  | String c0 rest =>
      let s0 := byteOf c0 in
      if s0 <? 0x80 then 1%nat
      else if s0 <? 0xC2 then 1%nat
      else if s0 <? 0xE0 then
        match rest with
        | String c1 _ => if between 0x80 0xBF c1 then 2%nat else 1%nat
        | _ => 1%nat
        end
      else if s0 <? 0xF0 then
        let lo := if s0 =? 0xE0 then 0xA0 else 0x80 in
        let hi := if s0 =? 0xED then 0x9F else 0xBF in
        match rest with
        | String c1 (String c2 _) =>
            if between lo hi c1 && between 0x80 0xBF c2 then 3%nat else 1%nat
        | _ => 1%nat
        end
      else if s0 <? 0xF5 then
        let lo := if s0 =? 0xF0 then 0x90 else 0x80 in
        let hi := if s0 =? 0xF4 then 0x8F else 0xBF in
        match rest with
        | String c1 (String c2 (String c3 _)) =>
            if between lo hi c1 && between 0x80 0xBF c2 && between 0x80 0xBF c3
            then 4%nat else 1%nat
        | _ => 1%nat
        end
      else 1%nat
  end.

End utf8.

Module strings.

(** [strings.Index(s, sep)]: the first position of [sep] in [s]. *)
Definition Index (s sep : string) : option nat := String.index 0 sep s.

(** The empty-separator case of [strings.Split]: one piece per UTF-8
    sequence.  Every step removes at least one byte, so [String.length s]
    steps are enough. *)
Fixpoint explode (fuel : nat) (s : string) : list string :=
  match fuel, s with
  | S fuel', String _ _ =>
      let w := utf8.runeWidth s in
      strTake w s :: explode fuel' (strDrop w s)
  | _, _ => []
  end.

(** The loop of [strings.Split] for a non-empty separator: cut at the
    first occurrence of [sep] and go on with what follows it; the piece
    after the last occurrence closes the result. *)
Fixpoint genSplit (fuel : nat) (s sep : string) : list string :=
  match fuel with
  | O => [s]
  | S fuel' =>
      match Index s sep with
      | None => [s]
      | Some m =>
          strTake m s :: genSplit fuel' (strDrop (m + String.length sep) s) sep
      end
  end.

Definition Split (s sep : string) : list string :=
  if decide (sep = EmptyString) then explode (String.length s) s
  else genSplit (String.length s) s sep.

(** [strings.Join(elems, sep)]. *)
Fixpoint Join (elems : list string) (sep : string) : string :=
  match elems with
  | [] => EmptyString
  | [x] => x
  | x :: rest => x +:+ sep +:+ Join rest sep
  end.

End strings.

Module sort.

(** [sort.Strings]: ascending byte-wise lexicographic order, the order of
    Go's [<] on strings. *)
Definition Strings (keys : list string) : list string :=
  merge_sort String.le keys.

End sort.

(** ** The trie *)

(** [type treeNode struct { value string; children map[string]treeNode }].
    Each node owns its map: [populate] gives every node it creates a map of
    its own ([make]), so no two nodes share one. *)
Inductive treeNode : Type :=
  TreeNode (value : string) (children : option (gmap string treeNode)).

Definition value (node : treeNode) : string :=
  let 'TreeNode v _ := node in v.

Definition children (node : treeNode) : option (gmap string treeNode) :=
  let 'TreeNode _ c := node in c.

(** Reading a [nil] map behaves as reading an empty one ([len], lookup and
    [range]); [kids] is the map as a reader sees it. *)
Definition kids (node : treeNode) : gmap string treeNode :=
  default ∅ (children node).

(** [treeNode{value: part, children: make(map[string]treeNode)}]. *)
Definition newNode (part : string) : treeNode := TreeNode part (Some ∅).

(** The root that [main] builds. *)
Definition root : treeNode := newNode "/".

(** The inner loop of [populate]: walk down from [node] along [parts],
    creating the children that are missing.  Storing into a [nil] map is a
    run-time panic: [None]. *)
Fixpoint descend (parts : list string) (node : treeNode) : option treeNode :=
  match parts with
  | [] => Some node
  | part :: rest =>
      match children node with
      | None => None
      | Some m =>
          let m' := match m !! part with
                    | Some _ => m
                    | None => <[part := newNode part]> m
                    end in
          match m' !! part with
          | None => None
          | Some child =>
              child' ← descend rest child;
              Some (TreeNode (value node) (Some (<[part := child']> m')))
          end
      end
  end.

(** [populate] updates the trie in place, through the maps the nodes
    share with the copies the loop takes; the embedding returns the
    updated trie. *)
Fixpoint populate (tree : treeNode) (keys : list string) (sep : string)
  : option treeNode :=
  match keys with
  | [] => Some tree
  | key :: keys' =>
      tree' ← descend (strings.Split key sep) tree;
      populate tree' keys' sep
  end.

(** [mapKeys]: the labels of a children map, sorted. *)
Definition mapKeys (m : gmap string treeNode) : list string :=
  sort.Strings (map_to_list m).*1.

(** ** Well-formed tries *)

(** Every map is allocated and every child is stored under its own label. *)
Inductive wf : treeNode → Prop :=
  | wf_node v (m : gmap string treeNode) :
      (∀ L c, m !! L = Some c → value c = L ∧ wf c) →
      wf (TreeNode v (Some m)).

(** The tries [main] can build: the fresh root after any number of
    [populate] calls (one per pattern). *)
Inductive reachable : treeNode → Prop :=
  | reachable_root : reachable root
  | reachable_populate t keys sep t' :
      reachable t → populate t keys sep = Some t' → reachable t'.

(** The child [descend] steps into: the one already stored, or a new one. *)
Definition stepInto (m : gmap string treeNode) (part : string) : treeNode :=
  default (newNode part) (m !! part).

(** [inTree t n]: [n] is [t] or a node below it. *)
Inductive inTree : treeNode → treeNode → Prop :=
  | inTree_here t : inTree t t
  | inTree_child t L c n : kids t !! L = Some c → inTree c n → inTree t n.

(** A single path below a node labelled [v]. *)
Fixpoint chain (v : string) (parts : list string) : treeNode :=
  match parts with
  | [] => newNode v
  | part :: rest => TreeNode v (Some {[ part := chain part rest ]})
  end.

(** A leaf is a node without children ([len(node.children) == 0], the test
    of [plotNode]); [leafDepths] lists the depth of every leaf below a node. *)
Fixpoint leafDepths (node : treeNode) : list nat :=
  match node with
  | TreeNode _ None => [0%nat]
  | TreeNode _ (Some m) =>
      if decide (size m = 0%nat) then [0%nat]
      else map_fold (λ _ c acc, (S <$> leafDepths c) ++ acc) [] m
  end.

(** ** The binary heuristic and the bit-string encoding *)

(** Go's [float64], on the executable IEEE 754 model of the standard
    library (binary64: 53 bits of precision, exponents below 1024). *)
Module float64.

Definition prec : Z := 53.
Definition emax : Z := 1024.

(** [float64(n)] for an integer [n]: rounded to nearest, ties to even. *)
Definition ofInt (n : Z) : spec_float := binary_normalize prec emax n 0 false.

Definition div (x y : spec_float) : spec_float := SFdiv prec emax x y.

(** [x >= y]: false as soon as one side is not a number. *)
Definition geb (x y : spec_float) : bool := SFleb y x.

(** The constant [0.3]: the double nearest to 3/10,
    [5404319552844595 * 2^-54]. *)
Definition c0_3 : spec_float := S754_finite false 5404319552844595 (-54).

End float64.

(** What the division of two floats is measured against in the proofs. *)

(** The integer nearest to [N / n], ties to even. *)
Definition rn (N n : Z) : Z :=
  let q := N / n in
  let r := N mod n in
  match 2 * r ?= n with
  | Lt => q
  | Eq => if Z.even q then q else q + 1
  | Gt => q + 1
  end.

(** The float of a rounded mantissa [m] in [2^52, 2^53] and an exponent [e]:
    [2^53] is [2^52] with the next exponent. *)
Definition final (m e : Z) : spec_float :=
  if m <? 2 ^ 53 then S754_finite false (Z.to_pos m) e
  else S754_finite false (Z.to_pos (2 ^ 52)) (e + 1).

(** The location of a remainder after one more bit, [odd], is shifted out. *)
Definition halfLoc (odd : bool) (l : location) : location :=
  match odd, l with
  | false, loc_Exact => loc_Exact
  | false, loc_Inexact _ => loc_Inexact Lt
  | true, loc_Exact => loc_Inexact Eq
  | true, loc_Inexact _ => loc_Inexact Gt
  end.

(** The mantissa of [float64.c0_3]. *)
Definition mc : Z := 5404319552844595.

(** The condition of the [if] in the loop of [isBinary]: the bytes that are
    not counted.  The last three are the letters ['r'], ['f'] and ['b']. *)
Definition visible (b : Z) : bool :=
  ((32 <=? b) && (b <? 127))
  || (b =? 10) || (b =? 9)
  || (b =? byteOf "r") || (b =? byteOf "f") || (b =? byteOf "b").

(** The value of [invisible] after the loop. *)
Definition countInvisible (bytes : list Z) : Z :=
  foldl (λ invisible b, if visible b then invisible else invisible + 1) 0 bytes.

Definition isBinary (bytes : list Z) : bool :=
  if decide (length bytes = 0%nat) then false
  else
    let invisible := countInvisible bytes in
    if float64.geb
         (float64.div (float64.ofInt invisible)
                      (float64.ofInt (Z.of_nat (length bytes))))
         float64.c0_3
    then true else false.

(** The inner loop of [bitset]: [i] runs from 0 to 7 and bit [i] of [char]
    is written at offset [7 - i] of the group of [index]. *)
Definition setBits (index : nat) (char : Z) (buf : list Z) : list Z :=
  foldl (λ buf i,
           let bit := Z.land (Z.shiftr char (Z.of_nat i)) 1 in
           if bit =? 0
           then <[(index * 8 + (7 - i))%nat := byteOf "0"]> buf
           else <[(index * 8 + (7 - i))%nat := byteOf "1"]> buf)
        buf (seq 0 8).

Fixpoint bitsetFrom (index : nat) (bytes : list Z) (buf : list Z) : list Z :=
  match bytes with
  | [] => buf
  | char :: rest => bitsetFrom (S index) rest (setBits index char buf)
  end.

Definition bitset (bytes : list Z) : list Z :=
  bitsetFrom 0 bytes (replicate (8 * length bytes) 0).

(** Reading a bit string back, by the words of the specification: every
    chunk of eight characters is a binary numeral, most significant bit
    first. *)
Definition decodeChunk (chunk : list Z) : Z :=
  foldl (λ acc c, 2 * acc + (c - byteOf "0")) 0 chunk.

Fixpoint decodeBits (fuel : nat) (bits : list Z) : list Z :=
  match fuel, bits with
  | S fuel', _ :: _ => decodeChunk (take 8 bits) :: decodeBits fuel' (drop 8 bits)
  | _, _ => []
  end.

(** The eight characters of one byte, bit 7 first. *)
Definition bitChars (char : Z) : list Z :=
  (λ i, if Z.testbit char (Z.of_nat i) then byteOf "1" else byteOf "0")
    <$> [7; 6; 5; 4; 3; 2; 1; 0]%nat.

(** ** Fetched values and their formatting *)

(** The dynamic value [query] returns in its [interface{}]: nothing, a
    [string], a [[]string] or a [map[string]string]; [None] is the [nil]
    slice or map. *)
Inductive fetched : Type :=
  | Nil
  | Str (s : string)
  | Strs (l : option (list string))
  | Hash (h : option (gmap string string)).

Definition nl : string := String "010" EmptyString.
Definition quote : string := String "034" EmptyString.
Definition backslash : string := String "092" EmptyString.

(** [encoding/json], for the two composite kinds the program serializes. *)
Module json.

Definition hex (n : Z) : string :=
  match String.get (Z.to_nat n) "0123456789abcdef" with
  | Some c => String c EmptyString
  | None => EmptyString
  end.

(** The ASCII bytes written as they are (with HTML escaping on, as
    [Marshal] has it). *)
Definition htmlSafe (b : Z) : bool :=
  (0x20 <=? b) && negb (b =? 0x22) && negb (b =? 0x26)
  && negb (b =? 0x3C) && negb (b =? 0x3E) && negb (b =? 0x5C).

Definition escapeByte (b : Z) : string :=
  if (b =? 0x5C) || (b =? 0x22) then backslash +:+ String (asciiOf b) EmptyString
  else if b =? 8 then backslash +:+ "b"
  else if b =? 12 then backslash +:+ "f"
  else if b =? 10 then backslash +:+ "n"
  else if b =? 13 then backslash +:+ "r"
  else if b =? 9 then backslash +:+ "t"
  else backslash +:+ "u00" +:+ hex (Z.shiftr b 4) +:+ hex (Z.land b 0xF).

(** U+2028 and U+2029 in UTF-8. *)
Definition lineSep : string := stringOf [0xE2; 0x80; 0xA8].
Definition paraSep : string := stringOf [0xE2; 0x80; 0xA9].

(** The inside of a string literal.  Every step takes at least one byte. *)
Fixpoint encodeBody (fuel : nat) (s : string) : string :=
  match fuel, s with
  | S fuel', String c rest =>
      let b := byteOf c in
      if b <? 0x80 then
        (if htmlSafe b then String c EmptyString else escapeByte b)
        +:+ encodeBody fuel' rest
      else
        let w := utf8.runeWidth s in
        if decide (w = 1%nat) then
          backslash +:+ "ufffd" +:+ encodeBody fuel' rest
        else if decide (strTake w s = lineSep) then
          backslash +:+ "u2028" +:+ encodeBody fuel' (strDrop w s)
        else if decide (strTake w s = paraSep) then
          backslash +:+ "u2029" +:+ encodeBody fuel' (strDrop w s)
        else strTake w s +:+ encodeBody fuel' (strDrop w s)
  | _, _ => EmptyString
  end.

Definition encodeString (s : string) : string :=
  quote +:+ encodeBody (String.length s) s +:+ quote.

(** The entries of an object, in the order of the sorted keys. *)
Definition entries (h : gmap string string) : list (string * string) :=
  (λ k, (k, default EmptyString (h !! k)))
    <$> sort.Strings (map_to_list h).*1.

(** The members of the array or object [val], each serialized, with what
    separates a key from its value; the brackets; [None] for [null]. *)
Definition members (colon : string) (val : fetched)
  : option (string * list string * string) :=
  match val with
  | Strs (Some l) => Some ("[", encodeString <$> l, "]")
  | Hash (Some h) =>
      Some ("{",
            (λ kv, encodeString kv.1 +:+ colon +:+ encodeString kv.2)
              <$> entries h,
            "}")
  | _ => None
  end.

(** [json.Marshal]. *)
Definition Marshal (val : fetched) : string :=
  match val with
  | Str s => encodeString s
  | _ =>
      match members ":" val with
      | Some (open, items, close) => open +:+ strings.Join items "," +:+ close
      | None => "null"
      end
  end.

(** [json.MarshalIndent]: every member starts on a line of its own that
    begins with [prefix] and one [indent]; the closing bracket is on a
    line that begins with [prefix]; an empty array or object stays [[]]
    or [{}]. *)
Definition MarshalIndent (val : fetched) (prefix indent : string) : string :=
  match val with
  | Str s => encodeString s
  | _ =>
      match members ": " val with
      | Some (open, [], close) => open +:+ close
      | Some (open, items, close) =>
          open +:+ nl +:+ prefix +:+ indent
          +:+ strings.Join items ("," +:+ nl +:+ prefix +:+ indent)
          +:+ nl +:+ prefix +:+ close
      | None => "null"
      end
  end.

End json.

(** [len] of a slice or a map. *)
Definition lenStrs (l : option (list string)) : Z :=
  Z.of_nat (length (default [] l)).
Definition lenHash (h : option (gmap string string)) : Z :=
  Z.of_nat (size (default ∅ h)).

Definition prettyPrint (val : fetched) (prefix : string) (wrap isLast : bool)
  : string :=
  let newPrefix := if negb isLast then prefix +:+ "|" else prefix in
  match val with
  | Hash h =>
      if negb wrap || (lenHash h <=? 1) then json.Marshal val
      else json.MarshalIndent val newPrefix "   "
  | Strs l =>
      if negb wrap || (lenStrs l <=? 1) then json.Marshal val
      else json.MarshalIndent val newPrefix "   "
  | Str s =>
      let result := bytesOf s in
      stringOf (if isBinary result then bitset result else result)
  | Nil => EmptyString
  end.

(** [len(val)] for a slice or a map, 0 for the other kinds. *)
Definition lenOf (val : fetched) : Z :=
  match val with
  | Strs l => lenStrs l
  | Hash h => lenHash h
  | _ => 0
  end.

(** A text is on a single line when no byte of it is a line feed. *)
Fixpoint hasNewline (s : string) : bool :=
  match s with
  | EmptyString => false
  | String c s' => (byteOf c =? 10) || hasNewline s'
  end.

Definition oneLine (s : string) : Prop := hasNewline s = false.

(** ** The renderer *)

(** The zero value of [treeNode], which a lookup of an absent key returns. *)
Definition zeroNode : treeNode := TreeNode EmptyString None.

(** [m[part]]. *)
Definition at_ (m : gmap string treeNode) (part : string) : treeNode :=
  default zeroNode (m !! part).

(** One call of [plotNode], with its arguments. *)
Record call : Type := Call {
  c_node : treeNode;
  c_key : string;
  c_leading : string;
  c_isLast : bool
}.

(** [plot] does nothing but call [plotNode] and itself: its embedding
    returns the calls of [plotNode] it makes, in program order.  The
    recursive calls are prepared for all the children at once ([below]), so
    that the recursion is structural; the body then follows the loop. *)
Fixpoint plot (node : treeNode) : string → string → list call :=
  match node with
  | TreeNode _ None => λ _ _, []
  | TreeNode _ (Some m) =>
      let below := plot <$> m in
      λ key leading,
        let parts := mapKeys m in
        concat (imap (λ index part,
          let newKey :=
            if decide (key = EmptyString) then part else key +:+ ":" +:+ part in
          let isLast := Z.of_nat index =? Z.of_nat (length parts) - 1 in
          let newLeading :=
            if isLast then leading +:+ "    " else leading +:+ "│   " in
          Call (at_ m part) newKey leading isLast
            :: default (λ _ _, []) (below !! part) newKey newLeading) parts)
  end.

(** What reaches the outside world. *)
Inductive event : Type :=
  | Query (key : string)
  | Print (text : string).

Section renderer.

(** The collaborators: [query] (type, ttl and value of a key, from the
    store), [ansi.Color], and the globals [wrap] and [turnOnColor]. *)
Variable query : string → string * Z * fetched.
Variable ansiColor : string → string → string.
Variables wrap turnOnColor : bool.

Definition colorize (s style : string) : string :=
  if turnOnColor then ansiColor s style else s.

(** The text after the label, for a leaf. *)
Definition annotation (key leading : string) (isLast : bool) : string :=
  let '(rtype, ttl, val) := query key in
  let sttl := if decide (ttl ≠ -1) then pretty ttl else EmptyString in
  "# " +:+ colorize rtype "yellow" +:+ " " +:+ colorize sttl "red"
  +:+ " " +:+ prettyPrint val leading wrap isLast.

Definition plotNode (node : treeNode) (key leading : string) (isLast : bool)
  : list event :=
  let sep := if isLast then "└── " else "├── " in
  let nodeVal := colorize (value node) "blue" in
  if decide (size (kids node) = 0%nat) then
    [Query key;
     Print (leading +:+ sep +:+ nodeVal +:+ " "
            +:+ annotation key leading isLast +:+ nl)]
  else
    [Print (leading +:+ sep +:+ nodeVal +:+ " " +:+ EmptyString +:+ nl)].

(** The rendering [main] starts: [plot] on the root, with an empty key
    and an empty leading, and [plotNode] at each call. *)
Definition render (tree : treeNode) : list event :=
  c ← plot tree EmptyString EmptyString;
  plotNode (c_node c) (c_key c) (c_leading c) (c_isLast c).

End renderer.

(** The keys handed to the lookup collaborator, in order. *)
Definition queried (events : list event) : list string :=
  omap (λ e, match e with Query key => Some key | Print _ => None end) events.

(** The direct calls of one invocation of [plot]: one per child. *)
Definition siblings (node : treeNode) (key leading : string) : list call :=
  let parts := mapKeys (kids node) in
  imap (λ index part,
          Call (at_ (kids node) part)
               (if decide (key = EmptyString) then part else key +:+ ":" +:+ part)
               leading
               (Z.of_nat index =? Z.of_nat (length parts) - 1)) parts.

(** The leading that [plot] passes on below a child. *)
Definition newLeading (c : call) : string :=
  if c_isLast c then c_leading c +:+ "    " else c_leading c +:+ "│   ".

(** ** Paths, sizes and the loop of [main] *)

(** Following labels down from a node, [node.children[l1].children[l2]...];
    [None] as soon as a label is missing. *)
Fixpoint walk (path : list string) (node : treeNode) : option treeNode :=
  match path with
  | [] => Some node
  | part :: rest => kids node !! part ≫= walk rest
  end.

(** The height of a trie, and the numbers of nodes and of leaves below its
    root. *)
Fixpoint height (node : treeNode) : nat :=
  match node with
  | TreeNode _ None => 0%nat
  | TreeNode _ (Some m) => map_fold (λ _ c acc, max (S (height c)) acc) 0%nat m
  end.

Fixpoint countBelow (node : treeNode) : nat :=
  match node with
  | TreeNode _ None => 0%nat
  | TreeNode _ (Some m) => map_fold (λ _ c acc, (S (countBelow c) + acc)%nat) 0%nat m
  end.

Fixpoint countLeaves (node : treeNode) : nat :=
  match node with
  | TreeNode _ None => 0%nat
  | TreeNode _ (Some m) =>
      map_fold (λ _ c acc,
                  ((if decide (size (kids c) = 0%nat) then 1 else countLeaves c)
                   + acc)%nat) 0%nat m
  end.



(** The keys [plotNode] looks up among the calls of [plot]: those of the
    nodes without children. *)
Definition leafKeys (calls : list call) : list string :=
  c ← calls; if decide (size (kids (c_node c)) = 0%nat) then [c_key c] else [].

(** The leading that [plot] builds below ancestors whose [isLast] flags are
    [flags], the outermost first: four columns for each. *)
Definition rails (flags : list bool) : string :=
  foldr (λ (isLast : bool) rest,
           (if isLast then "    " else "│   ") +:+ rest) EmptyString flags.

(** The key [plot] builds along a path, starting from [key]. *)
Definition extendKey (key : string) (path : list string) : string :=
  foldl (λ key part,
           if decide (key = EmptyString) then part else key +:+ ":" +:+ part)
        key path.

(** The loop of [main] over the patterns: the keys of each pattern are
    ingested, a pattern whose [KEYS] command fails is skipped.  [KEYS] is
    the reply of the store, [None] for an error. *)
Fixpoint ingestPatterns (KEYS : string → option (list string))
    (tree : treeNode) (patterns : list string) (sep : string)
  : option treeNode :=
  match patterns with
  | [] => Some tree
  | pattern :: rest =>
      match KEYS pattern with
      | None => ingestPatterns KEYS tree rest sep
      | Some keys =>
          tree' ← populate tree keys sep;
          ingestPatterns KEYS tree' rest sep
      end
  end.

(** ** The lookup *)

Section client.

(** The store, as the program reads it: the value each accessor of the
    client gives for the reply to a command (name and arguments).  The
    program drops the errors; a failed reply gives the zero value, which is
    [None] for a slice or a map.  [onlyKeys] is the global of that name. *)
Variable replyStr : list string → string.
Variable replyInt64 : list string → Z.
Variable replyList : list string → option (list string).
Variable replyHash : list string → option (gmap string string).
Variable onlyKeys : bool.

(** [query]: the commands it sends, in order, and what it returns. *)
Definition query (key : string) : list (list string) * (string * Z * fetched) :=
  let rtype := replyStr ["type"; key] in
  let ttl := replyInt64 ["ttl"; key] in
  if onlyKeys then
    ([["type"; key]; ["ttl"; key]], (rtype, ttl, Str EmptyString))
  else if decide (rtype = "string") then
    ([["type"; key]; ["ttl"; key]; ["get"; key]],
     (rtype, ttl, Str (replyStr ["get"; key])))
  else if decide (rtype = "list") then
    ([["type"; key]; ["ttl"; key]; ["lrange"; key; "0"; "-1"]],
     (rtype, ttl, Strs (replyList ["lrange"; key; "0"; "-1"])))
  else if decide (rtype = "set") then
    ([["type"; key]; ["ttl"; key]; ["smembers"; key]],
     (rtype, ttl, Strs (replyList ["smembers"; key])))
  else if decide (rtype = "hash") then
    ([["type"; key]; ["ttl"; key]; ["hgetall"; key]],
     (rtype, ttl, Hash (replyHash ["hgetall"; key])))
  else if decide (rtype = "zset") then
    ([["type"; key]; ["ttl"; key]; ["zrange"; key; "0"; "-1"; "WITHSCORES"]],
     (rtype, ttl, Hash (replyHash ["zrange"; key; "0"; "-1"; "WITHSCORES"])))
  else
    ([["type"; key]; ["ttl"; key]], (rtype, ttl, Nil)).

(** The commands of a whole rendering: those of [query], for every key
    [plotNode] looks up. *)
Definition commands (events : list event) : list (list string) :=
  key ← queried events; (query key).1.

End client.

(** The commands that read the store without changing it. *)
Definition readCommands : list string :=
  ["type"; "ttl"; "get"; "lrange"; "smembers"; "hgetall"; "zrange"].

Section trie_facts.

Implicit Types (t node : treeNode) (m : gmap string treeNode).
Implicit Types (parts : list string) (part key sep : string).

Lemma wf_newNode part : wf (newNode part).
Proof. constructor. intros L c. rewrite lookup_empty. discriminate. Qed.

Lemma wf_lookup v m L c :
  wf (TreeNode v (Some m)) → m !! L = Some c → value c = L ∧ wf c.
Proof. inversion 1; subst. auto. Qed.

Lemma wf_insert v m L c :
  wf (TreeNode v (Some m)) → value c = L → wf c →
  wf (TreeNode v (Some (<[L := c]> m))).
Proof.
  intros Hw Hv Hc. constructor. intros L' c' Hl.
  destruct (decide (L = L')) as [->|Hne].
  - rewrite lookup_insert_eq in Hl. by simplify_eq.
  - rewrite lookup_insert_ne in Hl by done. eapply wf_lookup; eauto.
Qed.

Lemma wf_stepInto v m part :
  wf (TreeNode v (Some m)) →
  value (stepInto m part) = part ∧ wf (stepInto m part).
Proof.
  intros Hw. unfold stepInto. destruct (m !! part) as [c|] eqn:E; simpl.
  - eapply wf_lookup; eauto.
  - split; [done | apply wf_newNode].
Qed.

Lemma descend_cons v m part rest :
  descend (part :: rest) (TreeNode v (Some m)) =
  child' ← descend rest (stepInto m part);
  Some (TreeNode v (Some (<[part := child']> m))).
Proof.
  unfold stepInto. simpl. destruct (m !! part) as [c|] eqn:E; simpl.
  - rewrite E. done.
  - rewrite lookup_insert_eq.
    destruct (descend rest (newNode part)) as [c'|]; simpl; [|done].
    by rewrite insert_insert_eq.
Qed.

Lemma descend_wf parts : ∀ t,
  wf t → ∃ t', descend parts t = Some t' ∧ wf t' ∧ value t' = value t.
Proof.
  induction parts as [|part rest IH]; intros t Hw.
  - exists t. done.
  - destruct Hw as [v m Hm]. rewrite descend_cons.
    destruct (wf_stepInto v m part) as [Hv Hc]; [by constructor|].
    destruct (IH _ Hc) as (c' & -> & Hc' & Hv'). simpl.
    eexists; split; [done|]. split; [|done].
    apply wf_insert; [by constructor | congruence | done].
Qed.

Lemma descend_comm p : ∀ q t,
  wf t → descend p t ≫= descend q = descend q t ≫= descend p.
Proof.
  induction p as [|a p' IH]; intros q t Hw.
  - change (descend q t = descend q t ≫= Some). by destruct (descend q t).
  - destruct q as [|b q'].
    { change (descend (a :: p') t ≫= Some = descend (a :: p') t).
      by destruct (descend (a :: p') t). }
    destruct Hw as [v m Hm].
    assert (Hw : wf (TreeNode v (Some m))) by by constructor.
    rewrite !descend_cons.
    destruct (wf_stepInto v m a Hw) as [Hva Hca].
    destruct (wf_stepInto v m b Hw) as [Hvb Hcb].
    destruct (descend_wf p' _ Hca) as (ca' & Ea & Hca' & Hva').
    destruct (descend_wf q' _ Hcb) as (cb' & Eb & Hcb' & Hvb').
    rewrite Ea, Eb. cbn [mbind option_bind]. rewrite !descend_cons.
    destruct (decide (a = b)) as [->|Hne].
    + unfold stepInto at 1 2. rewrite !lookup_insert_eq.
      cbn [default from_option id]. specialize (IH q' _ Hca).
      rewrite Ea, Eb in IH. cbn [mbind option_bind] in IH. rewrite IH.
      destruct (descend p' cb') as [c''|]; cbn [mbind option_bind]; [|done].
      by rewrite !insert_insert_eq.
    + unfold stepInto at 1 2.
      rewrite !lookup_insert_ne by done.
      fold (stepInto m a) (stepInto m b). rewrite Ea, Eb.
      cbn [mbind option_bind]. by rewrite (insert_insert_ne _ b a).
Qed.

Lemma descend_idem parts : ∀ t t',
  wf t → descend parts t = Some t' → descend parts t' = Some t'.
Proof.
  induction parts as [|part rest IH]; intros t t' Hw E.
  - done.
  - destruct Hw as [v m Hm]. rewrite descend_cons in E.
    destruct (wf_stepInto v m part) as [Hv Hc]; [by constructor|].
    destruct (descend rest (stepInto m part)) as [c'|] eqn:Ec; [|done].
    simpl in E. injection E as <-. rewrite descend_cons.
    unfold stepInto. rewrite lookup_insert_eq. simpl.
    rewrite (IH _ _ Hc Ec). simpl. by rewrite insert_insert_eq.
Qed.

Lemma populate_wf keys sep : ∀ t,
  wf t → ∃ t', populate t keys sep = Some t' ∧ wf t' ∧ value t' = value t.
Proof.
  induction keys as [|key keys IH]; intros t Hw; simpl.
  - by exists t.
  - destruct (descend_wf (strings.Split key sep) t Hw) as (t1 & -> & H1 & V1).
    simpl. destruct (IH t1 H1) as (t' & ? & ? & ?).
    exists t'. split_and!; [done | done | congruence].
Qed.

Lemma populate_app keys1 keys2 sep : ∀ t,
  populate t (keys1 ++ keys2) sep =
  populate t keys1 sep ≫= λ t', populate t' keys2 sep.
Proof.
  induction keys1 as [|key keys1 IH]; intros t; simpl; [done|].
  destruct (descend (strings.Split key sep) t); simpl; [apply IH | done].
Qed.

Lemma populate_perm keys keys' sep :
  keys ≡ₚ keys' → ∀ t, wf t → populate t keys sep = populate t keys' sep.
Proof.
  induction 1 as [|x l l' _ IH|x y l|l l' l'' _ IH1 _ IH2]; intros t Hw.
  - done.
  - simpl.
    destruct (descend_wf (strings.Split x sep) t Hw) as (t1 & -> & H1 & _).
    simpl. by apply IH.
  - pose proof (descend_comm (strings.Split y sep) (strings.Split x sep) t Hw)
      as Hc.
    destruct (descend_wf (strings.Split y sep) t Hw) as (ty & Ey & _).
    destruct (descend_wf (strings.Split x sep) t Hw) as (tx & Ex & _).
    rewrite Ey, Ex in Hc. cbn [mbind option_bind] in Hc.
    cbn [populate]. rewrite Ey, Ex. cbn [mbind option_bind].
    by rewrite Hc.
  - rewrite IH1 by done. by apply IH2.
Qed.

Lemma reachable_wf t : reachable t → wf t ∧ value t = "/".
Proof.
  induction 1 as [|t keys sep t' _ [Hw Hv] E].
  - split; [apply wf_newNode | done].
  - destruct (populate_wf keys sep t Hw) as (t'' & E' & ? & ?).
    rewrite E in E'. injection E' as <-. split; [done | congruence].
Qed.

Lemma descend_newNode parts : ∀ v,
  descend parts (newNode v) = Some (chain v parts).
Proof.
  induction parts as [|part rest IH]; intros v; [done|].
  unfold newNode at 1. rewrite descend_cons. unfold stepInto.
  rewrite lookup_empty. simpl. rewrite IH. simpl.
  by rewrite insert_empty.
Qed.

Lemma leafDepths_chain parts : ∀ v,
  leafDepths (chain v parts) = [length parts].
Proof.
  induction parts as [|part rest IH]; intros v; [done|].
  simpl. rewrite map_size_singleton. simpl.
  rewrite map_fold_singleton, IH. done.
Qed.

Lemma populate_single key sep :
  populate root [key] sep = Some (chain "/" (strings.Split key sep)).
Proof. cbn [populate]. unfold root. by rewrite descend_newNode. Qed.

End trie_facts.

(** ** [strings.Split] *)

Section split_facts.

Implicit Types (s sep : string).

Example Split_keys : strings.Split "tasks:a:1" ":" = ["tasks"; "a"; "1"].
Proof. reflexivity. Qed.

Example Split_runes :
  strings.Split (stringOf [104; 0xC3; 0xA9; 0xFF]) EmptyString
  = [stringOf [104]; stringOf [0xC3; 0xA9]; stringOf [0xFF]].
Proof. reflexivity. Qed.

Lemma length_strDrop (k : nat) s :
  String.length (strDrop k s) = (String.length s - k)%nat.
Proof.
  revert s. induction k as [|k IH]; intros [|c s]; cbn; try done.
Qed.

Lemma runeWidth_pos c s : (1 ≤ utf8.runeWidth (String c s))%nat.
Proof. unfold utf8.runeWidth. repeat case_match; lia. Qed.

Lemma Index_nonempty s sep (m : nat) :
  sep ≠ EmptyString → strings.Index s sep = Some m → s ≠ EmptyString.
Proof. intros Hsep Hi ->. by destruct sep. Qed.

(** The steps given to the loops of [Split] are enough: more of them
    change nothing. *)
Lemma genSplit_fuel sep :
  sep ≠ EmptyString →
  ∀ (fuel fuel' : nat) s,
    (String.length s ≤ fuel)%nat → (String.length s ≤ fuel')%nat →
    strings.genSplit fuel s sep = strings.genSplit fuel' s sep.
Proof.
  intros Hsep. induction fuel as [|fuel IH]; intros fuel' s Hf Hf'.
  - destruct s; [|cbn in Hf; lia].
    destruct fuel'; [done|]. cbn [strings.genSplit].
    destruct (strings.Index EmptyString sep) as [m|] eqn:E; [|done].
    by apply Index_nonempty in E.
  - destruct fuel' as [|fuel'].
    { destruct s; [|cbn in Hf'; lia]. cbn [strings.genSplit].
      destruct (strings.Index EmptyString sep) as [m|] eqn:E; [|done].
      by apply Index_nonempty in E. }
    cbn [strings.genSplit].
    destruct (strings.Index s sep) as [m|] eqn:E; [|done].
    f_equal. pose proof (Index_nonempty _ _ _ Hsep E) as Hs.
    assert (0 < String.length s ∧ 0 < String.length sep)%nat as [? ?]
      by (destruct s, sep; cbn; split; done || lia).
    apply IH; rewrite length_strDrop; lia.
Qed.

Lemma explode_fuel :
  ∀ (fuel fuel' : nat) s,
    (String.length s ≤ fuel)%nat → (String.length s ≤ fuel')%nat →
    strings.explode fuel s = strings.explode fuel' s.
Proof.
  induction fuel as [|fuel IH]; intros fuel' s Hf Hf'.
  - destruct s; [|cbn in Hf; lia]. by destruct fuel'.
  - destruct s as [|c s]; [by destruct fuel'|].
    destruct fuel' as [|fuel']; [cbn in Hf'; lia|].
    cbn [strings.explode]. f_equal.
    pose proof (runeWidth_pos c s).
    apply IH; rewrite length_strDrop; cbn [String.length] in *; lia.
Qed.

Lemma prefix_refl (s : string) : String.prefix s s = true.
Proof.
  induction s as [|c s IH]; simpl; [done|].
  destruct (ascii_dec c c); [done | congruence].
Qed.

Lemma strDrop_all (s : string) : strDrop (String.length s) s = EmptyString.
Proof. induction s; simpl; auto. Qed.

Lemma Split_empty_key (sep : string) :
  strings.Split EmptyString sep
  = if decide (sep = EmptyString) then [] else [EmptyString].
Proof. unfold strings.Split. by destruct (decide _). Qed.

Lemma Split_sep_alone (sep : string) :
  strings.Split sep sep
  = if decide (sep = EmptyString) then [] else [EmptyString; EmptyString].
Proof.
  unfold strings.Split. destruct (decide _) as [->|Hne]; [done|].
  destruct sep as [|c s]; [done|].
  cbn [String.length strings.genSplit]. unfold strings.Index.
  cbn [String.index]. rewrite prefix_refl.
  cbn [strTake Nat.add]. f_equal.
  change (strDrop (S (String.length s)) (String c s))
    with (strDrop (String.length s) s).
  rewrite strDrop_all. by destruct (String.length s).
Qed.

End split_facts.

(** ** Properties of the trie *)

(** The example of the specification: three keys under [tasks]. *)
Example populate_tasks :
  populate root ["tasks:a:1"; "tasks:a:2"; "tasks:b"] ":"
  = Some (TreeNode "/" (Some {[
      "tasks" := TreeNode "tasks" (Some {[
        "a" := TreeNode "a" (Some {[ "1" := newNode "1"; "2" := newNode "2" ]});
        "b" := newNode "b" ]}) ]})).
Proof. vm_compute. reflexivity. Qed.

(** C2 (as amended).  Ingesting the empty key, or a key equal to the
    separator alone, is a no-op only when the separator is empty.  With a
    non-empty separator [strings.Split] yields one empty segment for the
    empty key and two for the separator alone, and [populate] creates the
    nodes for them: one child with the empty label, or a chain of two. *)
Theorem populate_empty_key_and_lone_separator (sep : string) :
  strings.Split EmptyString sep
    = (if decide (sep = EmptyString) then [] else [EmptyString])
  ∧ strings.Split sep sep
    = (if decide (sep = EmptyString) then [] else [EmptyString; EmptyString])
  ∧ populate root [EmptyString] sep
    = Some (if decide (sep = EmptyString) then root
            else chain "/" [EmptyString])
  ∧ populate root [sep] sep
    = Some (if decide (sep = EmptyString) then root
            else chain "/" [EmptyString; EmptyString])
  ∧ ∀ tree, populate tree [EmptyString] EmptyString = Some tree.
Proof.
  split_and!.
  - apply Split_empty_key.
  - apply Split_sep_alone.
  - rewrite populate_single, Split_empty_key. by destruct (decide _).
  - rewrite populate_single, Split_sep_alone. by destruct (decide _).
  - done.
Qed.

(** C2 as stated fails: with the default separator the empty key and the
    key [":"] both add nodes to the fresh root. *)
Lemma populate_empty_key_not_noop :
  populate root [EmptyString] ":" ≠ Some root
  ∧ populate root [":"] ":" ≠ Some root.
Proof.
  rewrite !populate_single, Split_empty_key, Split_sep_alone.
  split; intros H; apply (f_equal (λ o, size (kids (default root o)))) in H;
    vm_compute in H; discriminate.
Qed.

(** C3 (as amended).  A key ingested into the fresh root becomes a single
    path with one node per segment of [strings.Split], the empty segments
    included: the depth of its leaf is the number of segments. *)
Theorem populate_leaf_depth (key sep : string) :
  populate root [key] sep = Some (chain "/" (strings.Split key sep))
  ∧ leafDepths (chain "/" (strings.Split key sep))
    = [length (strings.Split key sep)].
Proof.
  split; [apply populate_single | apply leafDepths_chain].
Qed.

(** C3 as stated fails: ["a::b"] contains the separator [":"], its leaf is
    at depth 3, and it has two non-empty segments. *)
Lemma populate_leaf_depth_counts_empty_segments :
  strings.Index "a::b" ":" = Some 1%nat
  ∧ populate root ["a::b"] ":" = Some (chain "/" ["a"; EmptyString; "b"])
  ∧ leafDepths (chain "/" ["a"; EmptyString; "b"]) = [3%nat]
  ∧ length (filter (λ s, s ≠ EmptyString) (strings.Split "a::b" ":")) = 2%nat.
Proof.
  split_and!; [done | | apply (leafDepths_chain [_;_;_]) | done].
  apply (populate_single "a::b" ":").
Qed.

(** C4.  Ingesting the keys in any order gives the same trie (equal maps
    have equal labels and equal children below them), and ingesting again
    a key of the list changes nothing.  This holds for the empty list
    too. *)
Theorem populate_order_independent (keys keys' : list string) (sep : string) :
  keys ≡ₚ keys' →
  ∃ t, populate root keys sep = Some t
     ∧ populate root keys' sep = Some t
     ∧ ∀ key, key ∈ keys → populate t [key] sep = Some t.
Proof.
  intros Hp.
  destruct (populate_wf keys sep root (wf_newNode _)) as (t & E & Hw & _).
  exists t. split_and!; [done | |].
  - rewrite <- E. symmetry. apply populate_perm; [done | apply wf_newNode].
  - intros key Hin.
    apply list_elem_of_split in Hin as (l1 & l2 & ->).
    assert (Hq : l1 ++ key :: l2 ≡ₚ (l1 ++ l2) ++ [key]).
    { rewrite <- app_assoc. apply Permutation_app_head.
      rewrite (Permutation_app_comm l2 [key]). done. }
    rewrite (populate_perm _ _ sep Hq root (wf_newNode _)) in E.
    rewrite populate_app in E.
    destruct (populate_wf (l1 ++ l2) sep root (wf_newNode _))
      as (t0 & E0 & Hw0 & _).
    rewrite E0 in E. cbn [mbind option_bind populate] in E |- *.
    destruct (descend (strings.Split key sep) t0) as [t1|] eqn:E1; [|done].
    cbn [mbind option_bind] in E. injection E as ->.
    by rewrite (descend_idem _ _ _ Hw0 E1).
Qed.

Lemma populate_order_independent_witness :
  ["b:x"; "a"; "b:y"] ≡ₚ ["a"; "b:y"; "b:x"]
  ∧ ∃ t, populate root ["b:x"; "a"; "b:y"] ":" = Some t
       ∧ populate root ["a"; "b:y"; "b:x"] ":" = Some t
       ∧ ∀ key, key ∈ ["b:x"; "a"; "b:y"] → populate t [key] ":" = Some t.
Proof.
  assert (H : ["b:x"; "a"; "b:y"] ≡ₚ ["a"; "b:y"; "b:x"]).
  { apply (Permutation_cons_append ["a"; "b:y"] "b:x"). }
  split; [exact H | exact (populate_order_independent _ _ ":" H)].
Defined.

Lemma inTree_wf (t n : treeNode) : wf t → inTree t n → wf n.
Proof.
  intros Hw Hin. induction Hin as [|t L c n Hl _ IH]; [done|].
  apply IH. destruct Hw as [v m Hm]. by apply (Hm L c).
Qed.

(** C10.  In every trie that ingestion can build from the fresh root, the
    root keeps the label ["/"], every node has an allocated map, every
    child is stored under its own label, and a further ingestion never
    stores into a [nil] map. *)
Theorem reachable_invariant (t : treeNode) :
  reachable t →
  value t = "/"
  ∧ (∀ n, inTree t n →
       (∃ m, children n = Some m)
       ∧ ∀ L c, kids n !! L = Some c → value c = L)
  ∧ ∀ keys sep, ∃ t', populate t keys sep = Some t'.
Proof.
  intros Hr. destruct (reachable_wf t Hr) as [Hw Hv].
  split_and!; [done | |].
  - intros n Hin. destruct (inTree_wf t n Hw Hin) as [v m Hm].
    split; [by exists m|]. intros L c Hl. by apply (Hm L c).
  - intros keys sep.
    destruct (populate_wf keys sep t Hw) as (t' & E & _). by exists t'.
Qed.

Lemma reachable_invariant_witness :
  reachable (chain "/" ["tasks"; "b"])
  ∧ value (chain "/" ["tasks"; "b"]) = "/"
  ∧ (∀ n, inTree (chain "/" ["tasks"; "b"]) n →
       (∃ m, children n = Some m)
       ∧ ∀ L c, kids n !! L = Some c → value c = L)
  ∧ ∀ keys sep, ∃ t', populate (chain "/" ["tasks"; "b"]) keys sep = Some t'.
Proof.
  assert (H : reachable (chain "/" ["tasks"; "b"])).
  { apply (reachable_populate root ["tasks:b"] ":" _ reachable_root).
    apply (populate_single "tasks:b" ":"). }
  split; [exact H | exact (reachable_invariant _ H)].
Defined.

(** ** The walk of [plot] *)

Section plot_facts.

Implicit Types (node : treeNode) (m : gmap string treeNode).
Implicit Types (key leading part : string).

Lemma mapKeys_perm m : mapKeys m ≡ₚ (map_to_list m).*1.
Proof. apply merge_sort_Permutation. Qed.

Lemma mapKeys_sorted m : StronglySorted String.le (mapKeys m).
Proof. apply (StronglySorted_merge_sort _). Qed.

Lemma mapKeys_NoDup m : NoDup (mapKeys m).
Proof. rewrite mapKeys_perm. apply NoDup_fst_map_to_list. Qed.

Lemma elem_of_mapKeys m part : part ∈ mapKeys m ↔ is_Some (m !! part).
Proof.
  rewrite mapKeys_perm, list_elem_of_fmap. split.
  - intros ([k c] & -> & Hin). apply elem_of_map_to_list in Hin. by exists c.
  - intros [c Hc]. exists (part, c). split; [done|].
    by apply elem_of_map_to_list.
Qed.

Lemma mapKeys_nil m : mapKeys m = [] ↔ m = ∅.
Proof.
  rewrite <- map_to_list_empty_iff. split; intros H.
  - pose proof (mapKeys_perm m) as Hp. rewrite H in Hp.
    symmetry in Hp. apply Permutation_nil_r in Hp.
    by apply fmap_nil_inv in Hp.
  - unfold mapKeys. by rewrite H.
Qed.

Lemma sorted_strict (l : list string) :
  StronglySorted String.le l → NoDup l → StronglySorted (strict String.le) l.
Proof.
  induction 1 as [|x l _ IH Hx]; intros Hnd; [constructor|].
  apply NoDup_cons in Hnd as [Hnin Hnd]. constructor; [by apply IH|].
  rewrite Forall_forall in Hx |- *. intros y Hy.
  apply strict_spec_alt. split; [by apply Hx|]. intros ->. done.
Qed.

Lemma mapKeys_strict m : StronglySorted (strict String.le) (mapKeys m).
Proof. apply sorted_strict; [apply mapKeys_sorted | apply mapKeys_NoDup]. Qed.

(** The equation of [plot], as the loop is written. *)
Lemma plot_unfold node key leading :
  plot node key leading
  = concat ((λ c, c :: plot (c_node c) (c_key c) (newLeading c))
              <$> siblings node key leading).
Proof.
  destruct node as [v [m|]]; [|done].
  unfold siblings. cbn [plot kids children default from_option id].
  rewrite fmap_imap. f_equal. apply imap_ext. intros i part _.
  cbn [compose c_node c_key newLeading c_isLast c_leading]. f_equal.
  rewrite lookup_fmap. unfold at_. by destruct (m !! part).
Qed.

Lemma siblings_labels node key leading :
  wf node →
  (λ c, value (c_node c)) <$> siblings node key leading = mapKeys (kids node).
Proof.
  intros [v m Hm]. unfold siblings. cbn [kids children default from_option id].
  rewrite fmap_imap.
  rewrite (imap_ext _ (const id)); [by rewrite imap_const, list_fmap_id|].
  intros i part Hi. cbn [compose c_node const id].
  assert (part ∈ mapKeys m) as [c Hc]%elem_of_mapKeys
    by (apply list_elem_of_lookup; eauto).
  unfold at_. rewrite Hc. by apply (Hm part c).
Qed.

Lemma siblings_leading node key leading c :
  c ∈ siblings node key leading → c_leading c = leading.
Proof.
  unfold siblings. intros (i & part & -> & _)%elem_of_lookup_imap_1. done.
Qed.

(** The flags of one level: none before the last child, which has it. *)
Lemma siblings_last node key leading :
  kids node ≠ ∅ →
  ∃ front c,
    siblings node key leading = front ++ [c]
    ∧ Forall (λ c', c_isLast c' = false) front
    ∧ c_isLast c = true.
Proof.
  intros Hne. unfold siblings.
  assert (mapKeys (kids node) ≠ []) as Hp by by rewrite mapKeys_nil.
  destruct (mapKeys (kids node)) as [|p0 ps] using rev_ind; [done|]. clear Hp.
  rewrite imap_app. cbn [imap].
  eexists _, _. split; [done|]. split.
  - apply Forall_forall.
    intros c' (i & part & -> & Hi)%elem_of_lookup_imap_1.
    apply lookup_lt_Some in Hi. cbn [c_isLast].
    rewrite length_app. cbn [length]. apply Z.eqb_neq. lia.
  - cbn [c_isLast]. rewrite length_app. cbn [length]. apply Z.eqb_eq. lia.
Qed.

Lemma filter_none {A} (P : A → Prop) `{∀ x, Decision (P x)} (l : list A) :
  Forall (λ x, ¬ P x) l → filter P l = [].
Proof.
  induction 1 as [|x l Hx _ IH]; [done|]. by rewrite filter_cons_False.
Qed.

End plot_facts.

(** ** Properties of the renderer *)

(** The example of the specification: [a] is drawn before [b], [1] before
    [2], and [tasks], [2] and [b] are the last of their levels. *)
Example plot_tasks :
  (λ c, (value (c_node c), c_key c, c_leading c, c_isLast c))
    <$> plot (default root
                (populate root ["tasks:b"; "tasks:a:2"; "tasks:a:1"] ":"))
             EmptyString EmptyString
  = [("tasks", "tasks", EmptyString, true);
     ("a", "tasks:a", "    ", false);
     ("1", "tasks:a:1", "    │   ", false);
     ("2", "tasks:a:2", "    │   ", true);
     ("b", "tasks:b", "    ", true)].
Proof. vm_compute. reflexivity. Qed.

(** C5.  Whatever the order in which the keys were ingested, the trie is
    the same, and at every node of it [plot] visits the children as
    [siblings] lists them: the labels are those of the children map, in
    strictly ascending byte order, and when there are children exactly one
    call has [isLast], the last one, whose label is the greatest. *)
Theorem siblings_ascending_one_last
    (keys keys' : list string) (sep : string) (t : treeNode) :
  keys ≡ₚ keys' →
  populate root keys sep = Some t →
  populate root keys' sep = Some t
  ∧ ∀ node key leading, inTree t node →
      let sibs := siblings node key leading in
      let labels := (λ c, value (c_node c)) <$> sibs in
      plot node key leading
      = concat ((λ c, c :: plot (c_node c) (c_key c) (newLeading c)) <$> sibs)
      ∧ labels ≡ₚ (map_to_list (kids node)).*1
      ∧ StronglySorted (strict String.le) labels
      ∧ (kids node ≠ ∅ →
         ∃ c, filter (λ c', c_isLast c' = true) sibs = [c]
            ∧ last sibs = Some c
            ∧ ∀ c', c' ∈ sibs → String.le (value (c_node c')) (value (c_node c))).
Proof.
  intros Hp E.
  assert (Hw : wf t).
  { destruct (populate_wf keys sep root (wf_newNode _)) as (t' & E' & Hw & _).
    congruence. }
  split.
  { rewrite <- E. symmetry. apply populate_perm; [done | apply wf_newNode]. }
  intros node key leading Hin sibs labels.
  pose proof (inTree_wf _ _ Hw Hin) as Hn.
  pose proof (siblings_labels node key leading Hn) as Hl.
  fold sibs in Hl. fold labels in Hl.
  split_and!.
  - apply plot_unfold.
  - rewrite Hl. apply mapKeys_perm.
  - rewrite Hl. apply mapKeys_strict.
  - intros Hne.
    destruct (siblings_last node key leading Hne) as (front & c & Es & Hf & Hc).
    fold sibs in Es. exists c. split_and!.
    + rewrite Es, filter_app, filter_none, filter_singleton_True; [done..|].
      eapply Forall_impl; [exact Hf|]. intros c' ->. discriminate.
    + rewrite Es. apply last_snoc.
    + intros c' Hc'.
      pose proof (mapKeys_sorted (kids node)) as Hs.
      rewrite <- Hl in Hs. unfold labels in Hs. rewrite Es, fmap_app in Hs.
      rewrite Es in Hc'. apply elem_of_app in Hc' as [Hc'|Hc'].
      * eapply (StronglySorted_app_1_elem_of _ _ _ _ _ Hs).
        -- by apply (list_elem_of_fmap_2 (λ c, value (c_node c))).
        -- apply (list_elem_of_fmap_2 (λ c, value (c_node c))). set_solver.
      * apply list_elem_of_singleton in Hc' as ->. done.
Qed.

Lemma siblings_ascending_one_last_witness :
  ["b"; "a:2"; "a:1"] ≡ₚ ["a:1"; "a:2"; "b"]
  ∧ populate root ["b"; "a:2"; "a:1"] ":"
    = Some (TreeNode "/" (Some {[
        "a" := TreeNode "a" (Some {[ "1" := newNode "1"; "2" := newNode "2" ]});
        "b" := newNode "b" ]}))
  ∧ populate root ["a:1"; "a:2"; "b"] ":"
    = Some (TreeNode "/" (Some {[
        "a" := TreeNode "a" (Some {[ "1" := newNode "1"; "2" := newNode "2" ]});
        "b" := newNode "b" ]})).
Proof.
  assert (Hp : ["b"; "a:2"; "a:1"] ≡ₚ ["a:1"; "a:2"; "b"]).
  { etrans; [apply (Permutation_cons_append ["a:2"; "a:1"] "b")|].
    apply (perm_swap "a:1" "a:2" ["b"]). }
  assert (E : populate root ["b"; "a:2"; "a:1"] ":"
    = Some (TreeNode "/" (Some {[
        "a" := TreeNode "a" (Some {[ "1" := newNode "1"; "2" := newNode "2" ]});
        "b" := newNode "b" ]}))) by (vm_compute; reflexivity).
  split; [exact Hp|]. split; [exact E|].
  exact (proj1 (siblings_ascending_one_last _ _ ":" _ Hp E)).
Defined.

(** C6.  [plotNode] ends with the line that starts with the leading and
    the branch glyph, which is the corner exactly for a last sibling and
    the tee otherwise; the two glyphs differ.  Every child of one [plot]
    call is drawn with the leading of that call, and the calls below a
    child get that leading extended by four spaces under a last sibling
    and by a vertical bar and three spaces otherwise. *)
Theorem branch_glyph_and_leading
    (query : string → string * Z * fetched) (ansiColor : string → string → string)
    (wrap turnOnColor : bool)
    (node : treeNode) (key leading : string) (isLast : bool) :
  (∃ extra,
     last (plotNode query ansiColor wrap turnOnColor node key leading isLast)
     = Some (Print (leading +:+ (if isLast then "└── " else "├── ")
                    +:+ colorize ansiColor turnOnColor (value node) "blue"
                    +:+ " " +:+ extra +:+ nl)))
  ∧ "└── " ≠ "├── "
  ∧ plot node key leading
    = concat ((λ c, c :: plot (c_node c) (c_key c)
                           (c_leading c +:+
                            (if c_isLast c then "    " else "│   ")))
                <$> siblings node key leading)
  ∧ ∀ c, c ∈ siblings node key leading → c_leading c = leading.
Proof.
  split_and!.
  - unfold plotNode. destruct (decide _); eexists; cbn [last]; reflexivity.
  - discriminate.
  - rewrite plot_unfold. f_equal.
    apply list_fmap_ext. intros _ c _. unfold newLeading.
    by destruct (c_isLast c).
  - apply siblings_leading.
Qed.

(** C1 (the code at the failing input).  With the separator ["/"] the
    key ["a/b"] is split into the labels [a] and [b], and the key handed to
    [query] for the leaf is ["a:b"]: [plot] joins the labels with a colon,
    not with the separator, which would give back ["a/b"]. *)
Theorem lookup_key_joined_with_colon
    (query : string → string * Z * fetched) (ansiColor : string → string → string)
    (wrap turnOnColor : bool) :
  strings.Split "a/b" "/" = ["a"; "b"]
  ∧ populate root ["a/b"] "/" = Some (chain "/" ["a"; "b"])
  ∧ queried (render query ansiColor wrap turnOnColor (chain "/" ["a"; "b"]))
    = ["a:b"]
  ∧ strings.Join ["a"; "b"] "/" = "a/b".
Proof.
  split_and!; [done | apply (populate_single "a/b" "/") | | done].
  vm_compute. reflexivity.
Qed.

(** With the default separator too the key of a leaf is not always the
    join of its labels: an empty first label is taken for the root. *)
Lemma lookup_key_drops_empty_first_label
    (query : string → string * Z * fetched) (ansiColor : string → string → string)
    (wrap turnOnColor : bool) :
  populate root [":a"] ":" = Some (chain "/" [EmptyString; "a"])
  ∧ queried (render query ansiColor wrap turnOnColor
               (chain "/" [EmptyString; "a"])) = ["a"]
  ∧ strings.Join [EmptyString; "a"] ":" = ":a".
Proof.
  split_and!; [apply (populate_single ":a" ":") | | done].
  vm_compute. reflexivity.
Qed.

(** ** The bit-string encoding *)

Section bitset_facts.

Implicit Types (bytes pre post buf : list Z) (char b : Z).

Lemma bit_is_testbit char (i : nat) :
  (Z.land (Z.shiftr char (Z.of_nat i)) 1 =? 0)
  = negb (Z.testbit char (Z.of_nat i)).
Proof.
  rewrite Z.testbit_odd. change 1 with (Z.ones 1).
  rewrite Z.land_ones by lia. change (2 ^ 1) with 2.
  rewrite Zmod_odd. by destruct (Z.odd _).
Qed.

Lemma insert_if {A} (c : bool) (k : nat) (x y : A) (l : list A) :
  (if c then <[k := x]> l else <[k := y]> l) = <[k := if c then x else y]> l.
Proof. by destruct c. Qed.

Lemma if_negb {A} (c : bool) (x y : A) :
  (if negb c then x else y) = (if c then y else x).
Proof. by destruct c. Qed.

Lemma setBits_block index char pre post x0 x1 x2 x3 x4 x5 x6 x7 :
  (index * 8)%nat = length pre →
  setBits index char (pre ++ [x0; x1; x2; x3; x4; x5; x6; x7] ++ post)
  = pre ++ bitChars char ++ post.
Proof.
  intros Hi. unfold setBits. cbn [foldl seq Nat.sub].
  rewrite Hi, !insert_if, !bit_is_testbit, !insert_app_r.
  cbn. f_equal. unfold bitChars. cbn. by rewrite !if_negb.
Qed.

Lemma bitsetFrom_spec bytes : ∀ index pre post,
  (index * 8)%nat = length pre →
  bitsetFrom index bytes (pre ++ replicate (8 * length bytes) 0 ++ post)
  = pre ++ (bytes ≫= bitChars) ++ post.
Proof.
  induction bytes as [|char rest IH]; intros index pre post Hi; [done|].
  cbn [bitsetFrom length].
  replace (8 * S (length rest))%nat with (8 + 8 * length rest)%nat by lia.
  rewrite replicate_add, <- app_assoc.
  change (replicate 8 0) with [0; 0; 0; 0; 0; 0; 0; 0].
  rewrite setBits_block by done.
  rewrite (app_assoc pre), IH.
  - by rewrite bind_cons, <- !app_assoc.
  - rewrite length_app. unfold bitChars. cbn [length fmap list_fmap]. lia.
Qed.

Lemma bitset_bind bytes : bitset bytes = bytes ≫= bitChars.
Proof.
  unfold bitset.
  pose proof (bitsetFrom_spec bytes 0 [] [] eq_refl) as H.
  by rewrite !app_nil_r in H.
Qed.

Lemma length_bitChars char : length (bitChars char) = 8%nat.
Proof. done. Qed.

Lemma length_bind_bitChars bytes :
  length (bytes ≫= bitChars) = (8 * length bytes)%nat.
Proof.
  induction bytes as [|b rest IH]; [done|].
  rewrite bind_cons, length_app, IH, length_bitChars. cbn [length]. lia.
Qed.

Lemma decodeChunk_bitChars b : 0 ≤ b < 256 → decodeChunk (bitChars b) = b.
Proof.
  intros Hb.
  assert (H : forallb (λ n, decodeChunk (bitChars (Z.of_nat n)) =? Z.of_nat n)
                      (seq 0 256) = true) by (vm_compute; reflexivity).
  rewrite forallb_forall in H.
  specialize (H (Z.to_nat b)). rewrite Z2Nat.id in H by lia.
  apply Z.eqb_eq, H, in_seq. lia.
Qed.

Lemma decodeBits_bind bytes : ∀ fuel,
  Forall (λ b, 0 ≤ b < 256) bytes → (length bytes ≤ fuel)%nat →
  decodeBits fuel (bytes ≫= bitChars) = bytes.
Proof.
  induction bytes as [|b rest IH]; intros fuel Hr Hf.
  - by destruct fuel.
  - apply Forall_cons in Hr as [Hb Hr].
    destruct fuel as [|fuel]; [cbn in Hf; lia|].
    rewrite bind_cons.
    assert (E : ∃ x l, bitChars b ++ (rest ≫= bitChars) = x :: l)
      by (unfold bitChars; cbn; eauto).
    destruct E as (x & l & E).
    cbn [decodeBits]. rewrite E, <- E.
    rewrite take_app_length' by done. rewrite drop_app_length' by done.
    rewrite decodeChunk_bitChars by done. f_equal.
    apply IH; [done | cbn in Hf; lia].
Qed.

End bitset_facts.

(** C7.  [bitset] returns eight characters per byte; the group of the
    [i]-th byte is its bits as ['0'] and ['1'], bit 7 first; and reading
    every eight characters as a binary numeral gives the input back. *)
Theorem bitset_msb_first_roundtrip (bytes : list Z) :
  Forall (λ b, 0 ≤ b < 256) bytes →
  length (bitset bytes) = (8 * length bytes)%nat
  ∧ bitset bytes = bytes ≫= bitChars
  ∧ (∀ (i : nat) b, bytes !! i = Some b →
       take 8 (drop (8 * i) (bitset bytes)) = bitChars b)
  ∧ decodeBits (length bytes) (bitset bytes) = bytes.
Proof.
  intros Hr. rewrite bitset_bind. split_and!.
  - apply length_bind_bitChars.
  - done.
  - intros i b Hi.
    rewrite <- (take_drop_middle bytes i b Hi), bind_app, bind_cons.
    rewrite drop_app_length'.
    + by rewrite take_app_length'.
    + rewrite length_bind_bitChars, length_take.
      apply lookup_lt_Some in Hi. lia.
  - by apply decodeBits_bind.
Qed.

Lemma bitset_msb_first_roundtrip_witness :
  Forall (λ b, 0 ≤ b < 256) [255; 1; 128]
  ∧ length (bitset [255; 1; 128]) = (8 * length [255; 1; 128])%nat
  ∧ bitset [255; 1; 128] = [255; 1; 128] ≫= bitChars
  ∧ (∀ (i : nat) b, [255; 1; 128] !! i = Some b →
       take 8 (drop (8 * i) (bitset [255; 1; 128])) = bitChars b)
  ∧ decodeBits (length [255; 1; 128]) (bitset [255; 1; 128]) = [255; 1; 128].
Proof.
  assert (H : Forall (λ b, 0 ≤ b < 256) [255; 1; 128])
    by (repeat constructor; lia).
  split; [exact H | exact (bitset_msb_first_roundtrip _ H)].
Defined.

(** ** The value formatter *)

Section format_facts.

Implicit Types (s t sep : string) (b : Z) (c : ascii).

Lemma stringOf_bytesOf s : stringOf (bytesOf s) = s.
Proof.
  induction s as [|c s IH]; [done|]. cbn [bytesOf stringOf]. rewrite IH.
  f_equal. unfold asciiOf, byteOf. by rewrite N2Z.id, ascii_N_embedding.
Qed.

Lemma hasNewline_app s t : hasNewline (s +:+ t) = hasNewline s || hasNewline t.
Proof.
  induction s as [|c s IH]; [done|]. simpl.
  by rewrite IH, orb_assoc.
Qed.

Lemma oneLine_app s t : oneLine s → oneLine t → oneLine (s +:+ t).
Proof. unfold oneLine. rewrite hasNewline_app. by intros -> ->. Qed.

Lemma oneLine_hex b : oneLine (json.hex b).
Proof.
  unfold json.hex. generalize (Z.to_nat b). intros k.
  do 17 (destruct k as [|k]; [done|]). done.
Qed.

Lemma oneLine_escapeByte b : oneLine (json.escapeByte b).
Proof.
  unfold json.escapeByte.
  destruct (_ || _) eqn:E.
  { apply orb_true_iff in E as [->%Z.eqb_eq | ->%Z.eqb_eq]; done. }
  repeat case_match; try done.
  repeat apply oneLine_app; try done; apply oneLine_hex.
Qed.

Lemma oneLine_strTake_rune c rest :
  0x80 ≤ byteOf c →
  oneLine (strTake (utf8.runeWidth (String c rest)) (String c rest)).
Proof.
  intros Hc. unfold oneLine, utf8.runeWidth, utf8.between.
  repeat case_match; cbn [strTake hasNewline];
    repeat match goal with
      | H : _ && _ = true |- _ => apply andb_true_iff in H as [? ?]
      | H : (_ <=? _) = true |- _ => apply Z.leb_le in H
      | H : (_ <? _) = false |- _ => apply Z.ltb_ge in H
      | H : (_ =? _) = true |- _ => apply Z.eqb_eq in H
      end;
    repeat (rewrite (proj2 (Z.eqb_neq _ 10)) by lia); done.
Qed.

Lemma oneLine_encodeBody fuel : ∀ s, oneLine (json.encodeBody fuel s).
Proof.
  induction fuel as [|fuel IH]; intros s; [done|].
  destruct s as [|c rest]; [done|]. cbn [json.encodeBody].
  destruct (byteOf c <? 0x80) eqn:Hc.
  - apply oneLine_app; [|apply IH].
    destruct (json.htmlSafe (byteOf c)) eqn:Hs; [|apply oneLine_escapeByte].
    unfold oneLine, json.htmlSafe in *. cbn [hasNewline].
    repeat (apply andb_true_iff in Hs as [Hs ?]). apply Z.leb_le in Hs.
    rewrite (proj2 (Z.eqb_neq _ 10)) by lia. done.
  - apply Z.ltb_ge in Hc.
    repeat case_match; repeat apply oneLine_app; try done; try apply IH.
    by apply oneLine_strTake_rune.
Qed.

Lemma oneLine_encodeString s : oneLine (json.encodeString s).
Proof.
  unfold json.encodeString.
  repeat apply oneLine_app; [done | apply oneLine_encodeBody | done].
Qed.

Lemma oneLine_Join (items : list string) sep :
  Forall oneLine items → oneLine sep → oneLine (strings.Join items sep).
Proof.
  intros Hi Hs. induction Hi as [|x l Hx Hl IH]; [done|].
  destruct l as [|y l]; [done|].
  change (oneLine (x +:+ sep +:+ strings.Join (y :: l) sep)).
  by repeat apply oneLine_app.
Qed.

Lemma append_assoc s t u : (s +:+ t) +:+ u = s +:+ (t +:+ u).
Proof.
  induction s as [|c s IH]; [done|].
  change (String c ((s +:+ t) +:+ u) = String c (s +:+ t +:+ u)). by f_equal.
Qed.

(** Prefixing every member is prefixing the join, with the prefix in the
    separator. *)
Lemma Join_prefixed (items : list string) (p sep : string) :
  items ≠ [] →
  strings.Join ((λ item, p +:+ item) <$> items) sep
  = p +:+ strings.Join items (sep +:+ p).
Proof.
  intros Hne. induction items as [|x l IH]; [done|].
  destruct l as [|y l]; [done|].
  change ((p +:+ x) +:+ sep +:+ strings.Join ((λ item, p +:+ item) <$> y :: l) sep
          = p +:+ x +:+ (sep +:+ p) +:+ strings.Join (y :: l) (sep +:+ p)).
  rewrite IH by done. by rewrite !append_assoc.
Qed.

Lemma members_items (colon : string) (val : fetched) :
  oneLine colon →
  match json.members colon val with
  | Some (_, items, _) =>
      Z.of_nat (length items) = lenOf val ∧ Forall oneLine items
  | None => lenOf val = 0
  end.
Proof.
  intros Hc. destruct val as [|s|[l|]|[h|]]; cbn [json.members lenOf]; try done.
  - split; [unfold lenStrs; by rewrite length_fmap|].
    apply Forall_fmap, Forall_forall. intros x _. apply oneLine_encodeString.
  - split.
    + unfold lenHash, json.entries, sort.Strings. cbn [default from_option id].
      rewrite !length_fmap, merge_sort_Permutation, length_fmap.
      by rewrite length_map_to_list.
    + apply Forall_fmap, Forall_forall. intros x _. cbn [compose].
      apply oneLine_app; [apply oneLine_encodeString|].
      apply oneLine_app; [done | apply oneLine_encodeString].
Qed.

Lemma Marshal_oneLine (val : fetched) : oneLine (json.Marshal val).
Proof.
  pose proof (members_items ":" val eq_refl) as Hm.
  destruct val as [|s|[l|]|[h|]]; try done.
  - apply oneLine_encodeString.
  - unfold json.Marshal. cbn [json.members] in *. destruct Hm as [_ Hi].
    apply oneLine_app; [done|]. apply oneLine_app; [|done].
    by apply oneLine_Join.
  - unfold json.Marshal. cbn [json.members] in *. destruct Hm as [_ Hi].
    apply oneLine_app; [done|]. apply oneLine_app; [|done].
    by apply oneLine_Join.
Qed.

(** The text of [MarshalIndent] for two members or more: the opening
    bracket, one line per member that starts with the prefix and one
    indent, and the closing bracket on a line that starts with the prefix. *)
Lemma MarshalIndent_lines (val : fetched) (prefix indent : string) :
  1 < lenOf val →
  ∃ open items close,
    json.members ": " val = Some (open, items, close)
    ∧ Z.of_nat (length items) = lenOf val
    ∧ Forall oneLine items
    ∧ json.MarshalIndent val prefix indent
      = open +:+ nl
        +:+ strings.Join ((λ item, (prefix +:+ indent) +:+ item) <$> items)
                         ("," +:+ nl)
        +:+ nl +:+ prefix +:+ close.
Proof.
  intros Hlen. pose proof (members_items ": " val eq_refl) as Hm.
  assert (Hv : json.MarshalIndent val prefix indent =
    match json.members ": " val with
    | Some (open, [], close) => open +:+ close
    | Some (open, items, close) =>
        open +:+ nl +:+ prefix +:+ indent
        +:+ strings.Join items ("," +:+ nl +:+ prefix +:+ indent)
        +:+ nl +:+ prefix +:+ close
    | None => "null"
    end).
  { destruct val as [|s|l|h]; cbn [lenOf] in Hlen; try lia; done. }
  destruct (json.members ": " val) as [[[open items] close]|]; [|lia].
  destruct Hm as [Hn Hi]. exists open, items, close.
  split_and!; [done..|]. rewrite Hv.
  destruct items as [|x items]; [cbn [length] in Hn; lia|].
  rewrite Join_prefixed by done. by rewrite !append_assoc.
Qed.

End format_facts.

(** The examples of the specification. *)
Example prettyPrint_hello :
  prettyPrint (Str "hello") EmptyString false true = "hello".
Proof. vm_compute. reflexivity. Qed.

Example prettyPrint_0xFF :
  prettyPrint (Str (stringOf [0xFF])) EmptyString true true = "11111111".
Proof. vm_compute. reflexivity. Qed.

Example prettyPrint_wrapped :
  prettyPrint (Strs (Some ["a"; "b"])) "  " true false
  = "[" +:+ nl +:+ "  |   " +:+ quote +:+ "a" +:+ quote +:+ "," +:+ nl
    +:+ "  |   " +:+ quote +:+ "b" +:+ quote +:+ nl +:+ "  |]".
Proof. vm_compute. reflexivity. Qed.

(** C9.  [prettyPrint] dispatches on the kind of the value.  A slice or a
    map with more than one element, when [wrap] is on, is serialized by
    [MarshalIndent] with the prefix (and a bar, unless the node is the last
    sibling) and a unit of three spaces: one line per element, each
    starting with that prefix and the unit, between the bracket lines.
    With at most one element, or with [wrap] off, it is serialized by
    [Marshal], on a single line.  A string that [isBinary] takes for text
    is returned as it is, and one it takes for binary as its bit string. *)
Theorem prettyPrint_dispatch
    (val : fetched) (prefix : string) (wrap isLast : bool) :
  let newPrefix := if isLast then prefix else prefix +:+ "|" in
  let out := prettyPrint val prefix wrap isLast in
  match val with
  | Nil => out = EmptyString
  | Str s =>
      out = if isBinary (bytesOf s) then stringOf (bitset (bytesOf s)) else s
  | Strs _ | Hash _ =>
      if wrap && (1 <? lenOf val) then
        out = json.MarshalIndent val newPrefix "   "
        ∧ ∃ open items close,
            json.members ": " val = Some (open, items, close)
            ∧ Z.of_nat (length items) = lenOf val
            ∧ Forall oneLine items
            ∧ out = open +:+ nl
                    +:+ strings.Join
                          ((λ item, (newPrefix +:+ "   ") +:+ item) <$> items)
                          ("," +:+ nl)
                    +:+ nl +:+ newPrefix +:+ close
      else out = json.Marshal val ∧ oneLine out
  end.
Proof.
  intros newPrefix out.
  assert (Hp : (if negb isLast then prefix +:+ "|" else prefix) = newPrefix)
    by by destruct isLast.
  assert (Hc : ∀ n, negb wrap || (n <=? 1) = negb (wrap && (1 <? n))).
  { intros n. destruct wrap; cbn [negb andb orb]; [|done].
    destruct (Z.leb_spec n 1), (Z.ltb_spec 1 n); done || lia. }
  destruct val as [|s|l|h]; subst out; unfold prettyPrint; rewrite ?Hp.
  - done.
  - destruct (isBinary (bytesOf s)); [done | apply stringOf_bytesOf].
  - rewrite (Hc (lenStrs l)). cbn [lenOf].
    destruct (wrap && (1 <? lenStrs l)) eqn:E; cbn [negb].
    + split; [done|]. apply MarshalIndent_lines. cbn [lenOf].
      apply andb_true_iff in E as [_ E]. by apply Z.ltb_lt.
    + split; [done | apply Marshal_oneLine].
  - rewrite (Hc (lenHash h)). cbn [lenOf].
    destruct (wrap && (1 <? lenHash h)) eqn:E; cbn [negb].
    + split; [done|]. apply MarshalIndent_lines. cbn [lenOf].
      apply andb_true_iff in E as [_ E]. by apply Z.ltb_lt.
    + split; [done | apply Marshal_oneLine].
Qed.

(** ** The quotient of two integers in [float64] *)

Section float_facts.

Lemma digits2_bounds p :
  2 ^ (Zpos (digits2_pos p) - 1) <= Zpos p < 2 ^ Zpos (digits2_pos p).
Proof.
  induction p as [p IH|p IH|]; cbn [digits2_pos].
  - rewrite Pos2Z.inj_succ. change (Z.pos p~1) with (2 * Z.pos p + 1).
    replace (Z.succ (Zpos (digits2_pos p)) - 1) with (Z.succ (Zpos (digits2_pos p) - 1)) by lia.
    rewrite !Z.pow_succ_r by lia.
    revert IH. generalize (2 ^ (Z.pos (digits2_pos p) - 1)) (2 ^ Z.pos (digits2_pos p)). lia.
  - rewrite Pos2Z.inj_succ. change (Z.pos p~0) with (2 * Z.pos p).
    replace (Z.succ (Zpos (digits2_pos p)) - 1) with (Z.succ (Zpos (digits2_pos p) - 1)) by lia.
    rewrite !Z.pow_succ_r by lia.
    revert IH. generalize (2 ^ (Z.pos (digits2_pos p) - 1)) (2 ^ Z.pos (digits2_pos p)). lia.
  - cbn. lia.
Qed.

Lemma digits2_unique p d :
  2 ^ (d - 1) <= Zpos p < 2 ^ d -> Zpos (digits2_pos p) = d.
Proof.
  intros [Hl Hu]. pose proof (digits2_bounds p) as [Hl' Hu'].
  assert (0 < d).
  { destruct (Z.ltb_spec 0 d); [assumption|]. 
    assert (2 ^ d <= 2 ^ 0) by (apply Z.pow_le_mono_r; lia). cbn in *. lia. }
  destruct (Z.lt_trichotomy (Zpos (digits2_pos p)) d) as [Hlt|[->|Hgt]]; [|reflexivity|].
  - assert (2 ^ Zpos (digits2_pos p) <= 2 ^ (d - 1)) by (apply Z.pow_le_mono_r; lia). lia.
  - assert (2 ^ d <= 2 ^ (Zpos (digits2_pos p) - 1)) by (apply Z.pow_le_mono_r; lia). lia.
Qed.

Lemma iter_xO p j : Zpos (Pos.iter xO p j) = Zpos p * 2 ^ Zpos j.
Proof.
  induction j as [|j IH] using Pos.peano_ind.
  - cbn. lia.
  - rewrite Pos.iter_succ. change (Z.pos (Pos.iter xO p j)~0) with (2 * Z.pos (Pos.iter xO p j)).
    rewrite IH, Pos2Z.inj_succ, Z.pow_succ_r by lia. lia.
Qed.

Lemma shr_fexp_normal m e l :
  Zpos (digits2_pos m) = 53 -> -1021 <= e ->
  shr_fexp 53 1024 (Zpos m) e l = (shr_record_of_loc (Zpos m) l, e).
Proof.
  intros Hd He. unfold shr_fexp, fexp, emin. cbn [Zdigits2]. rewrite Hd.
  replace (Z.max (53 + e - 53) (3 - 1024 - 53) - e) with 0 by lia.
  reflexivity.
Qed.

Lemma round_aux_exact m e :
  Zpos (digits2_pos m) = 53 -> -1021 <= e <= 971 ->
  binary_round_aux 53 1024 false (Zpos m) e loc_Exact = S754_finite false m e.
Proof.
  intros Hd He. unfold binary_round_aux.
  rewrite shr_fexp_normal by lia. cbn [shr_record_of_loc shr_m loc_of_shr_record round_nearest_even].
  rewrite shr_fexp_normal by lia. cbn [shr_record_of_loc shr_m].
  destruct (Z.leb_spec e (1024 - 53)); [reflexivity | lia].
Qed.

Lemma ofInt_normal k :
  0 < k < 2 ^ 53 ->
  exists m e, float64.ofInt k = S754_finite false m e
    /\ Zpos (digits2_pos m) = 53 /\ -52 <= e <= 0 /\ Zpos m = k * 2 ^ (- e).
Proof.
  intros Hk. destruct k as [|p|p]; try lia.
  pose proof (digits2_bounds p) as [Hl Hu].
  set (d := Zpos (digits2_pos p)) in *.
  assert (Hd : 1 <= d <= 53).
  { split; [subst d; lia|].
    destruct (Z.leb_spec d 53); [assumption|].
    assert (2 ^ 53 <= 2 ^ (d - 1)) by (apply Z.pow_le_mono_r; lia). lia. }
  unfold float64.ofInt, float64.prec, float64.emax, binary_normalize, binary_round.
  fold d. unfold fexp at 1, emin.
  replace (Z.max (d + 0 - 53) (3 - 1024 - 53)) with (d - 53) by lia.
  unfold shl_align. replace (d - 53 - 0) with (d - 53) by lia.
  destruct (d - 53) as [|j|j] eqn:Ej; try lia.
  - exists p, 0. split; [apply round_aux_exact; lia|].
    split; [fold d; lia|]. split; [lia|]. cbn. lia.
  - exists (Pos.iter xO p j), (Zneg j).
    assert (Hm : Zpos (Pos.iter xO p j) = Zpos p * 2 ^ Zpos j) by apply iter_xO.
    assert (Hdm : Zpos (digits2_pos (Pos.iter xO p j)) = 53).
    { apply digits2_unique. rewrite Hm.
      replace 53 with (d + Zpos j) at 2 by lia.
      replace (53 - 1) with ((d - 1) + Zpos j) by lia.
      rewrite !Z.pow_add_r by lia.
      assert (0 < 2 ^ Zpos j) by (apply Z.pow_pos_nonneg; lia). nia. }
    split; [apply round_aux_exact; lia|].
    split; [assumption|]. split; [lia|].
    rewrite Hm. reflexivity.
Qed.

Lemma new_location_spec Y r :
  0 < Y -> 0 <= r < Y ->
  new_location Y r = if r =? 0 then loc_Exact else loc_Inexact (2 * r ?= Y).
Proof.
  intros HY Hr. unfold new_location, new_location_even, new_location_odd.
  destruct (Z.even Y) eqn:Ev; destruct (r =? 0) eqn:Er; try reflexivity.
  f_equal. apply Z.eqb_neq in Er.
  assert (Z.odd Y = true) as Ho by (rewrite <- Z.negb_even, Ev; reflexivity).
  apply Z.odd_spec in Ho as [y Hy].
  destruct (Z.compare_spec (2 * r + 1) Y), (Z.compare_spec (2 * r) Y); try reflexivity; lia.
Qed.

Lemma loc_of_record m l : loc_of_shr_record (shr_record_of_loc m l) = l.
Proof. destruct l as [|[]]; reflexivity. Qed.

Lemma shr_m_of_loc m l : shr_m (shr_record_of_loc m l) = m.
Proof. destruct l as [|[]]; reflexivity. Qed.

Lemma pos_digits q d :
  0 < d -> 2 ^ (d - 1) <= q < 2 ^ d ->
  exists p, q = Zpos p /\ Zpos (digits2_pos p) = d.
Proof.
  intros Hd Hq. assert (0 < 2 ^ (d - 1)) by (apply Z.pow_pos_nonneg; lia).
  destruct q as [|p|p]; try lia. exists p. split; [reflexivity|].
  apply digits2_unique; assumption.
Qed.

(** The end of [binary_round_aux], once the mantissa has 53 bits. *)
Lemma round_finish m0 e0 l0 :
  2 ^ 52 <= m0 < 2 ^ 53 -> -1021 <= e0 <= 900 ->
  (let '(mrs, e) := shr_fexp 53 1024 (round_nearest_even m0 l0) e0 loc_Exact in
   match shr_m mrs with
   | Z0 => S754_zero false
   | Zpos m => if e <=? 1024 - 53 then S754_finite false m e else S754_infinity false
   | Zneg _ => S754_nan
   end) = final (round_nearest_even m0 l0) e0.
Proof.
  intros Hm He. set (m1 := round_nearest_even m0 l0).
  assert (Hm1 : 2 ^ 52 <= m1 <= 2 ^ 53).
  { subst m1. unfold round_nearest_even. destruct l0 as [|[]]; try lia.
    destruct (Z.even m0); lia. }
  unfold final. destruct (Z.ltb_spec m1 (2 ^ 53)) as [Hlt|Hge].
  - destruct (pos_digits m1 53) as (p & -> & Hp); [lia | lia |].
    rewrite shr_fexp_normal by lia. cbn [shr_record_of_loc shr_m Z.to_pos].
    destruct (Z.leb_spec e0 (1024 - 53)); [reflexivity | lia].
  - assert (m1 = 2 ^ 53) as -> by lia.
    unfold shr_fexp, fexp, emin.
    change (Zdigits2 (2 ^ 53)) with 54.
    replace (Z.max (54 + e0 - 53) (3 - 1024 - 53) - e0) with 1 by lia.
    cbn [shr_record_of_loc shr iter_pos]. 
    change (shr_1 {| shr_m := 2 ^ 53; shr_r := false; shr_s := false |})
      with {| shr_m := 2 ^ 52; shr_r := false; shr_s := false |}.
    cbn [shr_m]. change (2 ^ 52) with (Zpos (Z.to_pos (2 ^ 52))) at 1.
    cbv iota. change (Z.pos 1) with 1.
    destruct (Z.leb_spec (e0 + 1) (1024 - 53)); [reflexivity | lia].
Qed.

Lemma round_aux_53 q e l :
  2 ^ 52 <= q < 2 ^ 53 -> -1021 <= e <= 900 ->
  binary_round_aux 53 1024 false q e l = final (round_nearest_even q l) e.
Proof.
  intros Hq He. destruct (pos_digits q 53) as (p & -> & Hp); [lia | lia |].
  unfold binary_round_aux. rewrite shr_fexp_normal by lia.
  rewrite shr_m_of_loc, loc_of_record. apply round_finish; lia.
Qed.

Lemma shr_1_spec p l :
  shr_m (shr_1 (shr_record_of_loc (Zpos p) l)) = Zpos p / 2
  /\ loc_of_shr_record (shr_1 (shr_record_of_loc (Zpos p) l))
     = halfLoc (Z.odd (Zpos p)) l.
Proof.
  destruct p as [p|p|].
  - split; [|destruct l as [|[]]; reflexivity].
    replace (shr_m (shr_1 (shr_record_of_loc (Z.pos p~1) l))) with (Zpos p)
      by (destruct l as [|[]]; reflexivity).
    change (Z.pos p~1) with (2 * Z.pos p + 1).
    apply Z.div_unique with 1; lia.
  - split; [|destruct l as [|[]]; reflexivity].
    replace (shr_m (shr_1 (shr_record_of_loc (Z.pos p~0) l))) with (Zpos p)
      by (destruct l as [|[]]; reflexivity).
    change (Z.pos p~0) with (2 * Z.pos p).
    apply Z.div_unique with 0; lia.
  - split; destruct l as [|[]]; reflexivity.
Qed.

Lemma round_aux_54 q e l :
  2 ^ 53 <= q < 2 ^ 54 -> -1021 <= e <= 899 ->
  binary_round_aux 53 1024 false q e l
  = final (round_nearest_even (q / 2) (halfLoc (Z.odd q) l)) (e + 1).
Proof.
  intros Hq He. destruct (pos_digits q 54) as (p & -> & Hp); [lia | lia |].
  unfold binary_round_aux.
  assert (E : shr_fexp 53 1024 (Zpos p) e l
              = (shr_1 (shr_record_of_loc (Zpos p) l), e + 1)).
  { unfold shr_fexp, fexp, emin. cbn [Zdigits2]. rewrite Hp.
    replace (Z.max (54 + e - 53) (3 - 1024 - 53) - e) with 1 by lia.
    reflexivity. }
  rewrite E. destruct (shr_1_spec p l) as [-> ->].
  apply round_finish; [|lia].
  split.
  - apply Z.div_le_lower_bound; lia.
  - apply Z.div_lt_upper_bound; lia.
Qed.

Lemma div_eucl_eq a b : Z.div_eucl a b = (a / b, a mod b).
Proof. unfold Z.div, Z.modulo. destruct (Z.div_eucl a b); reflexivity. Qed.

Lemma SFdiv_normal m1 e1 m2 e2 :
  Zpos (digits2_pos m1) = 53 -> Zpos (digits2_pos m2) = 53 ->
  -52 <= e1 <= 0 -> -52 <= e2 <= 0 ->
  SFdiv 53 1024 (S754_finite false m1 e1) (S754_finite false m2 e2)
  = binary_round_aux 53 1024 false
      ((Zpos m1 * 2 ^ 53) / Zpos m2) (e1 - e2 - 53)
      (new_location (Zpos m2) ((Zpos m1 * 2 ^ 53) mod Zpos m2)).
Proof.
  intros D1 D2 R1 R2. unfold SFdiv, SFdiv_core_binary, fexp, emin.
  cbn [Zdigits2 xorb]. rewrite D1, D2.
  replace (Z.min (Z.max (53 + e1 - (53 + e2) - 53) (3 - 1024 - 53)) (e1 - e2))
    with (e1 - e2 - 53) by lia.
  replace (e1 - e2 - (e1 - e2 - 53)) with 53 by lia.
  cbv iota. rewrite Z.shiftl_mul_pow2 by lia.
  rewrite div_eucl_eq. reflexivity.
Qed.

Lemma rn_bounds N n : 0 < n -> N / n <= rn N n <= N / n + 1.
Proof.
  intros Hn. unfold rn. destruct (2 * (N mod n) ?= n); try lia.
  destruct (Z.even (N / n)); lia.
Qed.

Lemma round_rn N n :
  0 < n ->
  round_nearest_even (N / n)
    (if N mod n =? 0 then loc_Exact else loc_Inexact (2 * (N mod n) ?= n))
  = rn N n.
Proof.
  intros Hn. unfold rn, round_nearest_even.
  destruct (Z.eqb_spec (N mod n) 0) as [->|Hr].
  - assert (E : (2 * 0 ?= n) = Lt) by (apply Z.compare_lt_iff; lia).
    rewrite E. reflexivity.
  - destruct (2 * (N mod n) ?= n); reflexivity.
Qed.

Lemma round_half_rn N n :
  0 < n ->
  round_nearest_even ((2 * N) / n / 2)
    (halfLoc (Z.odd ((2 * N) / n))
       (if (2 * N) mod n =? 0 then loc_Exact
        else loc_Inexact (2 * ((2 * N) mod n) ?= n)))
  = rn N n.
Proof.
  intros Hn.
  pose proof (Z.div_mod (2 * N) n ltac:(lia)) as Hdm.
  pose proof (Z.mod_pos_bound (2 * N) n Hn) as Hr.
  set (q := (2 * N) / n) in *. set (r := (2 * N) mod n) in *.
  pose proof (Z.div_mod q 2 ltac:(lia)) as Hq.
  pose proof (Z.mod_pos_bound q 2 ltac:(lia)) as Hb.
  rewrite (Zmod_odd q) in Hq, Hb.
  set (h := q / 2) in *.
  assert (Hh : N / n = h /\ 2 * (N mod n) = (if Z.odd q then 1 else 0) * n + r).
  { assert (E : N = n * h + (N - n * h)) by lia.
    assert (0 <= N - n * h < n) by (destruct (Z.odd q); nia).
    split.
    - symmetry. apply (Z.div_unique N n h (N - n * h)); lia.
    - replace (N mod n) with (N - n * h);
        [destruct (Z.odd q); nia|].
      apply (Z.mod_unique N n h (N - n * h)); lia. }
  destruct Hh as [Hh1 Hh2]. unfold rn. rewrite Hh1, Hh2.
  destruct (Z.odd q); unfold halfLoc, round_nearest_even.
  - destruct (Z.eqb_spec r 0) as [->|Hr0].
    + assert (E : (1 * n + 0 ?= n) = Eq) by (apply Z.compare_eq_iff; lia).
      rewrite E. reflexivity.
    + assert (E : (1 * n + r ?= n) = Gt) by (apply Z.compare_gt_iff; lia).
      rewrite E. reflexivity.
  - assert (E : (0 * n + r ?= n) = Lt) by (apply Z.compare_lt_iff; lia).
    rewrite E. destruct (r =? 0); reflexivity.
Qed.

Lemma div_spec i n :
  0 < i <= n -> n < 2 ^ 53 ->
  exists s, 52 <= s <= 105
    /\ 2 ^ 52 <= (i * 2 ^ s) / n < 2 ^ 53
    /\ float64.div (float64.ofInt i) (float64.ofInt n)
       = final (rn (i * 2 ^ s) n) (- s).
Proof.
  intros Hi Hn.
  destruct (ofInt_normal i) as (m1 & e1 & E1 & D1 & R1 & V1); [lia|].
  destruct (ofInt_normal n) as (m2 & e2 & E2 & D2 & R2 & V2); [lia|].
  unfold float64.div. rewrite E1, E2, SFdiv_normal by assumption.
  pose proof (digits2_bounds m1) as B1. rewrite D1 in B1.
  pose proof (digits2_bounds m2) as B2. rewrite D2 in B2.
  change (2 ^ (53 - 1)) with (2 ^ 52) in B1, B2.
  assert (HB : 0 < 2 ^ (- e2)) by (apply Z.pow_pos_nonneg; lia).
  (* the smaller number is shifted at least as much *)
  assert (He : e1 <= e2).
  { destruct (Z.leb_spec e1 e2); [assumption|]. exfalso.
    assert (Hp : 2 ^ (- e2) = 2 ^ (- e1) * 2 ^ (e1 - e2)).
    { rewrite <- Z.pow_add_r by lia. f_equal. lia. }
    assert (2 ^ 1 <= 2 ^ (e1 - e2)) by (apply Z.pow_le_mono_r; lia).
    assert (0 < 2 ^ (- e1)) by (apply Z.pow_pos_nonneg; lia).
    change (2 ^ 1) with 2 in *. nia. }
  set (K := e2 - e1).
  assert (HA : 2 ^ (- e1) = 2 ^ K * 2 ^ (- e2)).
  { rewrite <- Z.pow_add_r by lia. f_equal. lia. }
  assert (HK : 0 < 2 ^ K) by (apply Z.pow_pos_nonneg; lia).
  set (N := i * 2 ^ (K + 53)).
  assert (HX : Zpos m1 * 2 ^ 53 = N * 2 ^ (- e2)).
  { subst N. rewrite V1, HA, Z.pow_add_r by lia. ring. }
  rewrite HX, V2.
  rewrite Z.div_mul_cancel_r, Z.mul_mod_distr_r by lia.
  pose proof (Z.mod_pos_bound N n ltac:(lia)) as Hr.
  rewrite new_location_spec by nia.
  replace (N mod n * 2 ^ (- e2) =? 0) with (N mod n =? 0)
    by (destruct (Z.eqb_spec (N mod n) 0), (Z.eqb_spec (N mod n * 2 ^ (- e2)) 0);
        try reflexivity; nia).
  replace (2 * (N mod n * 2 ^ (- e2)) ?= n * 2 ^ (- e2))
    with (2 * (N mod n) ?= n)
    by (destruct (Z.compare_spec (2 * (N mod n)) n),
                 (Z.compare_spec (2 * (N mod n * 2 ^ (- e2))) (n * 2 ^ (- e2)));
        try reflexivity; nia).
  assert (Hq : 2 ^ 52 <= N / n < 2 ^ 54).
  { rewrite <- (Z.div_mul_cancel_r N n (2 ^ (- e2))) by lia.
    rewrite <- HX, <- V2. split.
    - apply Z.div_le_lower_bound; lia.
    - apply Z.div_lt_upper_bound; lia. }
  destruct (Z.ltb_spec (N / n) (2 ^ 53)) as [Hlt|Hge].
  - exists (K + 53). split; [lia|]. split; [fold N; lia|].
    rewrite round_aux_53 by lia. rewrite round_rn by lia.
    fold N. f_equal. lia.
  - exists (K + 52). 
    assert (HN : N = 2 * (i * 2 ^ (K + 52))).
    { subst N. replace (K + 53) with (Z.succ (K + 52)) by lia.
      rewrite Z.pow_succ_r by lia. ring. }
    assert (Hd : i * 2 ^ (K + 52) / n = N / n / 2).
    { rewrite HN. rewrite Z.div_div by lia.
      rewrite (Z.mul_comm n 2). rewrite Z.div_mul_cancel_l by lia. reflexivity. }
    split.
    { (* K <= 52: the quotient has 54 bits only if i * 2^K >= n *)
      split; [lia|]. destruct (Z.leb_spec (K + 52) 105); [assumption|].
      exfalso. lia. }
    split.
    { rewrite Hd. split.
      - apply Z.div_le_lower_bound; lia.
      - apply Z.div_lt_upper_bound; lia. }
    rewrite round_aux_54 by lia. rewrite HN. rewrite round_half_rn by lia.
    f_equal. lia.
Qed.

Lemma rn_threshold i n :
  0 <= i -> 0 < n < 2 ^ 51 ->
  (mc <= rn (i * 2 ^ 54) n <-> 3 * n <= 10 * i).
Proof.
  intros Hi Hn. unfold mc.
  pose proof (Z.div_mod (i * 2 ^ 54) n ltac:(lia)) as Hdm.
  pose proof (Z.mod_pos_bound (i * 2 ^ 54) n ltac:(lia)) as Hr.
  pose proof (rn_bounds (i * 2 ^ 54) n ltac:(lia)) as Hb.
  unfold rn in *.
  set (q := i * 2 ^ 54 / n) in *. set (r := (i * 2 ^ 54) mod n) in *.
  change (2 ^ 54) with 18014398509481984 in *.
  change (2 ^ 51) with 2251799813685248 in *.
  split.
  - (* below the threshold the quotient rounds below the constant *)
    intros Hm. destruct (Z.leb_spec (3 * n) (10 * i)); [assumption|]. exfalso.
    assert (H2 : 2 * (n * q + r) < (2 * 5404319552844595 - 1) * n) by lia.
    assert (Hq : q <= 5404319552844595 - 1) by nia.
    destruct (Z.eq_dec q (5404319552844595 - 1)) as [->|Hne].
    + assert (E : (2 * r ?= n) = Lt) by (apply Z.compare_lt_iff; lia).
      rewrite E in Hm. lia.
    + lia.
  - intros H. assert (5404319552844595 <= q) by nia. lia.
Qed.

Lemma final_threshold i n s :
  0 < i -> 0 < n < 2 ^ 51 -> 52 <= s ->
  2 ^ 52 <= (i * 2 ^ s) / n < 2 ^ 53 ->
  (SFleb float64.c0_3 (final (rn (i * 2 ^ s) n) (- s)) = true
   <-> 3 * n <= 10 * i).
Proof.
  intros Hi Hn Hs Hq.
  pose proof (Z.div_mod (i * 2 ^ s) n ltac:(lia)) as Hdm.
  pose proof (Z.mod_pos_bound (i * 2 ^ s) n ltac:(lia)) as Hr.
  pose proof (rn_bounds (i * 2 ^ s) n ltac:(lia)) as Hb.
  assert (HP : 0 < 2 ^ s) by (apply Z.pow_pos_nonneg; lia).
  assert (Hlow : s <= 53 -> 3 * n <= 10 * i).
  { intros Hle. assert (2 ^ s <= 2 ^ 53) by (apply Z.pow_le_mono_r; lia).
    change (2 ^ 53) with 9007199254740992 in *.
    change (2 ^ 52) with 4503599627370496 in *. nia. }
  assert (Hhigh : 55 <= s -> 10 * i < 3 * n).
  { intros Hge. assert (2 ^ 55 <= 2 ^ s) by (apply Z.pow_le_mono_r; lia).
    change (2 ^ 55) with 36028797018963968 in *.
    change (2 ^ 53) with 9007199254740992 in *.
    change (2 ^ 52) with 4503599627370496 in *. nia. }
  unfold final, float64.c0_3, SFleb, SFcompare.
  destruct (Z.ltb_spec (rn (i * 2 ^ s) n) (2 ^ 53)) as [Hlt|Hge].
  - destruct (Z.compare_spec (-54) (- s)) as [E|E|E].
    + assert (s = 54) as -> by lia.
      rewrite <- rn_threshold by lia. fold mc.
      assert (Hpos : 0 < rn (i * 2 ^ 54) n) by lia.
      destruct (rn (i * 2 ^ 54) n) as [|m|m]; try lia. cbn [Z.to_pos].
      change (Pos.compare_cont Eq 5404319552844595 m)
        with (mc ?= Zpos m).
      destruct (Z.compare_spec mc (Zpos m)); split; intros; try lia; try discriminate; reflexivity.
    + split; [intros _; apply Hlow; lia | reflexivity].
    + split; [discriminate | intros; specialize (Hhigh ltac:(lia)); lia].
  - (* the quotient rounds up to the next power of two *)
    assert (Hq' : 2 ^ 53 - 1 <= i * 2 ^ s / n) by lia.
    destruct (Z.compare_spec (-54) (- s + 1)) as [E|E|E].
    + assert (s = 55) by lia. subst s.
      split; [discriminate | intros; specialize (Hhigh ltac:(lia)); lia].
    + split; [intros _ | reflexivity].
      destruct (Z.leb_spec s 53); [apply Hlow; lia|].
      assert (s = 54) by lia. subst s.
      change (2 ^ 53) with 9007199254740992 in *.
      change (2 ^ 54) with 18014398509481984 in *. nia.
    + split; [discriminate | intros; specialize (Hhigh ltac:(lia)); lia].
Qed.

Lemma geb_div_threshold i n :
  0 <= i <= n -> 0 < n < 2 ^ 51 ->
  (float64.geb (float64.div (float64.ofInt i) (float64.ofInt n)) float64.c0_3
   = true <-> 3 * n <= 10 * i).
Proof.
  intros Hi Hn. unfold float64.geb.
  destruct (Z.eq_dec i 0) as [->|Hne].
  - destruct (ofInt_normal n) as (m2 & e2 & E2 & _); [split; [lia|]|].
    { apply Z.lt_trans with (2 ^ 51); [lia | reflexivity]. }
    rewrite E2. cbn. split; [discriminate | lia].
  - destruct (div_spec i n) as (s & Hs & Hq & ->); [lia| |].
    { apply Z.lt_trans with (2 ^ 51); [lia | reflexivity]. }
    apply final_threshold; lia.
Qed.

End float_facts.

(** ** The binary heuristic *)

Section isBinary_facts.

Implicit Types (bytes : list Z) (b : Z).

Lemma countInvisible_from bytes : ∀ acc,
  foldl (λ invisible b, if visible b then invisible else invisible + 1) acc bytes
  = acc + Z.of_nat (length (filter (λ b, visible b = false) bytes)).
Proof.
  induction bytes as [|b rest IH]; intros acc; [cbn; lia|].
  cbn [foldl]. rewrite IH, filter_cons.
  destruct (visible b); [by rewrite decide_False|].
  rewrite decide_True by done. cbn [length]. lia.
Qed.

Lemma countInvisible_filter bytes :
  countInvisible bytes
  = Z.of_nat (length (filter (λ b, visible b = false) bytes)).
Proof. unfold countInvisible. by rewrite countInvisible_from. Qed.

Lemma countInvisible_bounds bytes :
  0 ≤ countInvisible bytes ≤ Z.of_nat (length bytes).
Proof.
  rewrite countInvisible_filter.
  pose proof (length_filter (λ b, visible b = false) bytes). lia.
Qed.

Lemma visible_spec b :
  visible b = true
  ↔ 0x20 ≤ b ≤ 0x7E ∨ b = 10 ∨ b = 9
    ∨ b = byteOf "r" ∨ b = byteOf "f" ∨ b = byteOf "b".
Proof.
  unfold visible.
  rewrite !orb_true_iff, andb_true_iff, Z.leb_le, Z.ltb_lt, !Z.eqb_eq. lia.
Qed.

(** Nothing invisible: the quotient is zero (or not a number), below 0.3. *)
Lemma geb_zero_div (y : spec_float) :
  float64.geb (float64.div (float64.ofInt 0) y) float64.c0_3 = false.
Proof. by destruct y as [| | |[]]. Qed.

End isBinary_facts.

(** X19.  What [isBinary] computes.  It is false for the empty input and for an
    input of printable ASCII bytes only.  Otherwise it counts the bytes
    that [visible] rejects: those that are not printable ASCII, newline or
    tab (the letters [r], [f] and [b] that the source also lists are
    printable ASCII already).  It returns true exactly when that count over
    the length is at least 3/10, that is [3 * len <= 10 * count]: the
    quotient and the comparison are those of [float64], and the
    equivalence is proved for inputs of less than [2^51] bytes. *)
Lemma isBinary_threshold (bytes : list Z) :
  Z.of_nat (length bytes) < 2 ^ 51 →
  isBinary [] = false
  ∧ (Forall (λ b, 0x20 ≤ b ≤ 0x7E) bytes → isBinary bytes = false)
  ∧ (∀ b, visible b = true
          ↔ 0x20 ≤ b ≤ 0x7E ∨ b = 10 ∨ b = 9
            ∨ b = byteOf "r" ∨ b = byteOf "f" ∨ b = byteOf "b")
  ∧ countInvisible bytes
    = Z.of_nat (length (filter (λ b, visible b = false) bytes))
  ∧ (bytes ≠ [] →
     (isBinary bytes = true
      ↔ 3 * Z.of_nat (length bytes) ≤ 10 * countInvisible bytes)).
Proof.
  intros Hlen. split_and!.
  - done.
  - intros Hp. unfold isBinary. destruct (decide _); [done|].
    assert (countInvisible bytes = 0) as ->.
    { rewrite countInvisible_filter.
      rewrite (filter_none (λ b, visible b = false)); [done|].
      eapply Forall_impl; [exact Hp|]. intros b Hb. cbn beta in Hb.
      assert (visible b = true) as -> by (apply visible_spec; lia). done. }
    by rewrite geb_zero_div.
  - apply visible_spec.
  - apply countInvisible_filter.
  - intros Hne. unfold isBinary.
    destruct (decide (length bytes = 0%nat)) as [E|E].
    { by destruct bytes. }
    pose proof (countInvisible_bounds bytes) as Hb.
    rewrite <- (geb_div_threshold (countInvisible bytes)
                                  (Z.of_nat (length bytes))) by lia.
    by destruct (float64.geb _ _).
Qed.

Example isBinary_threshold_at_a_third :
  Z.of_nat (length [0; 65; 66]) < 2 ^ 51
  ∧ isBinary [0; 65; 66] = true
  ∧ 3 * Z.of_nat (length [0; 65; 66]) ≤ 10 * countInvisible [0; 65; 66].
Proof.
  assert (H : Z.of_nat (length [0; 65; 66]) < 2 ^ 51) by (vm_compute; reflexivity).
  split; [exact H|].
  destruct (isBinary_threshold [0; 65; 66] H) as (_ & _ & _ & _ & Hiff).
  assert (Hle : 3 * Z.of_nat (length [0; 65; 66]) ≤ 10 * countInvisible [0; 65; 66])
    by (vm_compute; discriminate).
  split; [|exact Hle].
  apply Hiff; [discriminate | exact Hle].
Defined.

(** C8 (the code at the failing input).  Three short lines that end in
    carriage return and line feed: every byte is printable ASCII, a line
    feed or a carriage return, so no byte should count.  The source
    compares with the letters ['r'], ['f'] and ['b'] where the control
    codes [\r], [\f] and [\b] are meant: the three carriage returns count
    as invisible, which is a third of the bytes, and the text is taken for
    binary. *)
Theorem isBinary_counts_carriage_returns :
  Forall (λ b, 0x20 ≤ b ≤ 0x7E ∨ b = 10 ∨ b = 9 ∨ b = 13 ∨ b = 12 ∨ b = 8)
         [97; 13; 10; 98; 13; 10; 99; 13; 10]
  ∧ visible 13 = false ∧ visible 12 = false ∧ visible 8 = false
  ∧ countInvisible [97; 13; 10; 98; 13; 10; 99; 13; 10] = 3
  ∧ isBinary [97; 13; 10; 98; 13; 10; 99; 13; 10] = true.
Proof.
  split.
  { repeat (apply List.Forall_cons; [cbn beta; lia|]). apply List.Forall_nil. }
  split_and!; vm_compute; reflexivity.
Qed.

(** ** The paths of the trie *)

Section path_facts.

Implicit Types (t node n : treeNode) (m : gmap string treeNode).
Implicit Types (path parts : list string) (part key sep L : string).

Lemma walk_newNode part path :
  is_Some (walk path (newNode part)) ↔ path = [].
Proof.
  destruct path as [|p ps]; [by split; eauto|].
  cbn [walk newNode kids children default from_option id].
  rewrite lookup_empty. split; [by intros [? ?] | done].
Qed.

Lemma walk_stepInto m part path v :
  is_Some (walk path (stepInto m part))
  ↔ is_Some (walk (part :: path) (TreeNode v (Some m))) ∨ path = [].
Proof.
  cbn [walk kids children default from_option id]. unfold stepInto.
  destruct (m !! part) as [c|]; cbn [default from_option id mbind option_bind].
  - split; [by left|]. intros [H| ->]; [done | by eexists].
  - rewrite walk_newNode. split; [by right|]. intros [[? ?]|?]; done.
Qed.

(** What [descend] adds to the paths of a trie: the prefixes of [parts]. *)
Lemma walk_descend parts : ∀ t t' path,
  wf t → descend parts t = Some t' →
  (is_Some (walk path t')
   ↔ is_Some (walk path t) ∨ path `prefix_of` parts).
Proof.
  induction parts as [|a rest IH]; intros t t' path Hw E.
  - injection E as <-. split; [by left|]. intros [H|H]; [done|].
    apply prefix_nil_inv in H as ->. by eexists.
  - destruct Hw as [v m Hm].
    assert (Hw : wf (TreeNode v (Some m))) by by constructor.
    rewrite descend_cons in E.
    destruct (wf_stepInto v m a Hw) as [_ Hc].
    destruct (descend rest (stepInto m a)) as [c'|] eqn:Ec; [|done].
    cbn [mbind option_bind] in E. injection E as <-.
    destruct path as [|p ps].
    { split; [by left | intros _; by eexists]. }
    cbn [walk kids children default from_option id].
    destruct (decide (a = p)) as [<-|Hne].
    + rewrite lookup_insert_eq. cbn [mbind option_bind].
      rewrite (IH _ _ ps Hc Ec), (walk_stepInto m a ps v).
      cbn [walk kids children default from_option id].
      split.
      * intros [[H| ->]|H]; [by left | right; apply prefix_cons, prefix_nil
                            | right; by apply prefix_cons].
      * intros [H|H]; [by left; left|]. right. by eapply prefix_cons_inv_2.
    + rewrite lookup_insert_ne by done. split; [by left|].
      intros [H|H]; [done|]. by apply prefix_cons_inv_1 in H.
Qed.

Lemma walk_populate keys sep : ∀ t t' path,
  wf t → populate t keys sep = Some t' →
  (is_Some (walk path t')
   ↔ is_Some (walk path t)
     ∨ ∃ key, key ∈ keys ∧ path `prefix_of` strings.Split key sep).
Proof.
  induction keys as [|key keys IH]; intros t t' path Hw E.
  - injection E as <-. split; [by left|]. intros [H|(key & Hin & _)]; [done|].
    by apply elem_of_nil in Hin.
  - cbn [populate] in E.
    destruct (descend_wf (strings.Split key sep) t Hw) as (t1 & E1 & Hw1 & _).
    rewrite E1 in E. cbn [mbind option_bind] in E.
    rewrite (IH _ _ path Hw1 E), (walk_descend _ _ _ path Hw E1).
    split.
    + intros [[H|H]|(k & Hin & H)].
      * by left.
      * right. exists key. split; [apply elem_of_cons; by left | done].
      * right. exists k. split; [apply elem_of_cons; by right | done].
    + intros [H|(k & Hin & H)]; [by left; left|].
      apply elem_of_cons in Hin as [->|Hin]; [by left; right|].
      right. by exists k.
Qed.

(** Nodes stay where they are, with their labels. *)
Lemma walk_descend_value parts : ∀ t t' path n,
  descend parts t = Some t' → walk path t = Some n →
  ∃ n', walk path t' = Some n' ∧ value n' = value n.
Proof.
  induction parts as [|a rest IH]; intros t t' path n E Hn.
  - injection E as <-. by exists n.
  - destruct t as [v [m|]]; [|done]. rewrite descend_cons in E.
    destruct (descend rest (stepInto m a)) as [c'|] eqn:Ec; [|done].
    cbn [mbind option_bind] in E. injection E as <-.
    destruct path as [|p ps].
    { injection Hn as <-. by eexists. }
    cbn [walk kids children default from_option id] in Hn |- *.
    destruct (decide (a = p)) as [<-|Hne].
    + rewrite lookup_insert_eq. cbn [mbind option_bind].
      destruct (m !! a) as [c|] eqn:Ea; [|done].
      cbn [mbind option_bind] in Hn.
      unfold stepInto in Ec. rewrite Ea in Ec.
      by apply (IH _ _ ps n Ec).
    + rewrite lookup_insert_ne by done. by exists n.
Qed.

Lemma walk_wf path : ∀ t n, wf t → walk path t = Some n → wf n.
Proof.
  induction path as [|p ps IH]; intros t n Hw Hn.
  - by injection Hn as <-.
  - destruct Hw as [v m Hm].
    cbn [walk kids children default from_option id] in Hn.
    destruct (m !! p) as [c|] eqn:Ep; [|done].
    apply (IH c); [by apply (Hm p c) | done].
Qed.

Lemma walk_app path1 path2 t :
  walk (path1 ++ path2) t = walk path1 t ≫= walk path2.
Proof.
  revert t. induction path1 as [|p ps IH]; intros t; [done|].
  cbn [app walk]. destruct (kids t !! p) as [c|]; [apply IH | done].
Qed.

(** The label of a node is the last label of its path. *)
Lemma walk_label path L t n :
  wf t → walk (path ++ [L]) t = Some n → value n = L.
Proof.
  intros Hw. rewrite walk_app.
  destruct (walk path t) as [n0|] eqn:E0; [|done].
  cbn [mbind option_bind walk].
  destruct (walk_wf _ _ _ Hw E0) as [v m Hm].
  cbn [kids children default from_option id].
  destruct (m !! L) as [c|] eqn:EL; [|done].
  cbn [mbind option_bind]. intros [= <-]. by apply (Hm L c).
Qed.

(** A node is a leaf when no path goes on below it. *)
Lemma leaf_walk path t n :
  walk path t = Some n →
  (size (kids n) = 0%nat ↔ ∀ L, walk (path ++ [L]) t = None).
Proof.
  intros Hn. rewrite map_size_empty_iff. split.
  - intros He L. rewrite walk_app, Hn. cbn [mbind option_bind walk].
    by rewrite He, lookup_empty.
  - intros H. apply map_eq. intros L. rewrite lookup_empty.
    specialize (H L). rewrite walk_app, Hn in H.
    cbn [mbind option_bind walk] in H. by destruct (kids n !! L).
Qed.

End path_facts.

(** ** More on the trie *)

Section populate_more.

Implicit Types (t : treeNode) (keys : list string) (key sep : string).

Lemma populate_absorb t key keys sep :
  wf t → key ∈ keys →
  populate t (key :: keys) sep = populate t keys sep.
Proof.
  intros Hw [keys0 Hp]%elem_of_Permutation.
  rewrite (populate_perm keys (key :: keys0) sep Hp t Hw).
  rewrite (populate_perm (key :: keys) (key :: key :: keys0) sep
             (perm_skip key Hp) t Hw).
  cbn [populate].
  destruct (descend_wf (strings.Split key sep) t Hw) as (t1 & E1 & _).
  rewrite E1. cbn [mbind option_bind].
  by rewrite (descend_idem _ _ _ Hw E1).
Qed.

Lemma populate_remove_dups keys sep : ∀ t,
  wf t → populate t (remove_dups keys) sep = populate t keys sep.
Proof.
  induction keys as [|key keys IH]; intros t Hw; [done|].
  cbn [remove_dups]. destruct (decide_rel elem_of key keys) as [Hin|Hnin].
  - by rewrite IH, populate_absorb.
  - cbn [populate].
    destruct (descend_wf (strings.Split key sep) t Hw) as (t1 & -> & Hw1 & _).
    cbn [mbind option_bind]. by apply IH.
Qed.

Lemma ingestPatterns_populate KEYS patterns sep : ∀ t,
  ingestPatterns KEYS t patterns sep
  = populate t (mjoin (omap KEYS patterns)) sep.
Proof.
  induction patterns as [|pattern rest IH]; intros t; [done|].
  cbn [ingestPatterns omap list_omap].
  destruct (KEYS pattern) as [keys|]; [|apply IH].
  cbn [mjoin list_join]. rewrite populate_app.
  destruct (populate t keys sep) as [t'|]; [apply IH | done].
Qed.

End populate_more.

(** X1.  The paths of the trie built from the fresh root are the empty
    path and the prefixes of the split keys, no others; and the label of
    every node is the last label of its path. *)
Theorem trie_paths_are_key_prefixes
    (keys : list string) (sep : string) (t : treeNode) :
  populate root keys sep = Some t →
  (∀ path, is_Some (walk path t)
           ↔ path = []
             ∨ ∃ key, key ∈ keys ∧ path `prefix_of` strings.Split key sep)
  ∧ ∀ path L n, walk (path ++ [L]) t = Some n → value n = L.
Proof.
  intros E. split.
  - intros path.
    rewrite (walk_populate keys sep root t path (wf_newNode _) E).
    unfold root. by rewrite walk_newNode.
  - intros path L n. apply walk_label.
    destruct (populate_wf keys sep root (wf_newNode _)) as (t' & E' & Hw & _).
    congruence.
Qed.

Lemma trie_paths_are_key_prefixes_witness :
  populate root ["a:b"] ":" = Some (chain "/" ["a"; "b"])
  ∧ (∀ path, is_Some (walk path (chain "/" ["a"; "b"]))
             ↔ path = []
               ∨ ∃ key, key ∈ ["a:b"] ∧ path `prefix_of` strings.Split key ":")
  ∧ ∀ path L n,
      walk (path ++ [L]) (chain "/" ["a"; "b"]) = Some n → value n = L.
Proof.
  split; [apply (populate_single "a:b" ":")|].
  exact (trie_paths_are_key_prefixes ["a:b"] ":" _ (populate_single "a:b" ":")).
Defined.

(** X2.  Ingestion never removes or relabels a node: what a path reaches
    before [populate], it reaches after it, with the same label. *)
Theorem populate_keeps_nodes
    (t t' : treeNode) (keys : list string) (sep : string)
    (path : list string) (n : treeNode) :
  populate t keys sep = Some t' →
  walk path t = Some n →
  ∃ n', walk path t' = Some n' ∧ value n' = value n.
Proof.
  revert t t' path n.
  induction keys as [|key keys IH]; intros t t' path n E Hn.
  - injection E as <-. by exists n.
  - cbn [populate] in E.
    destruct (descend (strings.Split key sep) t) as [t1|] eqn:E1; [|done].
    cbn [mbind option_bind] in E.
    destruct (walk_descend_value _ _ _ _ _ E1 Hn) as (n1 & H1 & V1).
    destruct (IH _ _ _ _ E H1) as (n' & H' & V').
    exists n'. split; [done | congruence].
Qed.

Lemma populate_keeps_nodes_witness :
  populate (chain "/" ["a"]) ["a:b"; "c"] ":"
  = Some (TreeNode "/" (Some {[ "a" := chain "a" ["b"]; "c" := newNode "c" ]}))
  ∧ walk ["a"] (chain "/" ["a"]) = Some (newNode "a")
  ∧ ∃ n', walk ["a"] (TreeNode "/"
              (Some {[ "a" := chain "a" ["b"]; "c" := newNode "c" ]}))
          = Some n'
        ∧ value n' = value (newNode "a").
Proof.
  assert (E : populate (chain "/" ["a"]) ["a:b"; "c"] ":"
    = Some (TreeNode "/"
              (Some {[ "a" := chain "a" ["b"]; "c" := newNode "c" ]})))
    by (vm_compute; reflexivity).
  assert (W : walk ["a"] (chain "/" ["a"]) = Some (newNode "a"))
    by (vm_compute; reflexivity).
  split; [exact E|]. split; [exact W|].
  exact (populate_keeps_nodes _ _ _ _ _ _ E W).
Defined.

Lemma leaf_iff_maximal
    (keys : list string) (sep : string) (t : treeNode) (key : string) :
  populate root keys sep = Some t →
  key ∈ keys →
  ∃ n, walk (strings.Split key sep) t = Some n
     ∧ (size (kids n) = 0%nat
        ↔ ∀ key' L rest, key' ∈ keys →
            strings.Split key' sep ≠ strings.Split key sep ++ L :: rest).
Proof.
  intros E Hin.
  pose proof (walk_populate keys sep root t) as Hp.
  assert (is_Some (walk (strings.Split key sep) t)) as [n Hn].
  { apply (Hp _ (wf_newNode _) E). right. by exists key. }
  exists n. split; [done|]. rewrite (leaf_walk _ _ _ Hn). split.
  - intros Hleaf key' L rest Hin' Hs.
    assert (is_Some (walk (strings.Split key sep ++ [L]) t)) as [n' Hn'].
    { apply (Hp _ (wf_newNode _) E). right. exists key'. split; [done|].
      exists rest. by rewrite Hs, <- app_assoc. }
    by rewrite Hleaf in Hn'.
  - intros Hmax L.
    destruct (walk (strings.Split key sep ++ [L]) t) as [n'|] eqn:En'; [|done].
    exfalso.
    assert (Hs : is_Some (walk (strings.Split key sep ++ [L]) t)) by by eexists.
    apply (Hp _ (wf_newNode _) E) in Hs as [Hs|(key' & Hin' & [rest Hs])].
    + unfold root in Hs. apply walk_newNode in Hs. by destruct (strings.Split key sep).
    + apply (Hmax key' L rest Hin'). by rewrite Hs, <- app_assoc.
Qed.



(** X4.  The trie depends on the set of the keys only: two lists with the
    same elements, whatever their order and their repetitions, give the
    same trie. *)
Theorem populate_same_key_set (keys keys' : list string) (sep : string) :
  (∀ key, key ∈ keys ↔ key ∈ keys') →
  populate root keys sep = populate root keys' sep.
Proof.
  intros Hs.
  rewrite <- (populate_remove_dups keys sep root (wf_newNode _)).
  rewrite <- (populate_remove_dups keys' sep root (wf_newNode _)).
  apply populate_perm; [|apply wf_newNode].
  apply NoDup_Permutation; [apply NoDup_remove_dups..|].
  intros key. by rewrite !elem_of_remove_dups.
Qed.

Lemma populate_same_key_set_witness :
  (∀ key, key ∈ ["a:b"; "c"; "a:b"] ↔ key ∈ ["c"; "a:b"])
  ∧ populate root ["a:b"; "c"; "a:b"] ":" = populate root ["c"; "a:b"] ":".
Proof.
  assert (H : ∀ key, key ∈ ["a:b"; "c"; "a:b"] ↔ key ∈ ["c"; "a:b"]).
  { intros key. rewrite !elem_of_cons, elem_of_nil. tauto. }
  split; [exact H | exact (populate_same_key_set _ _ ":" H)].
Defined.

(** X5.  The trie [main] builds over its patterns is the trie of all the
    keys of the patterns whose [KEYS] command succeeds, the failing ones
    being skipped; and the order of the patterns does not matter. *)
Theorem main_trie_of_patterns
    (KEYS : string → option (list string))
    (patterns patterns' : list string) (sep : string) :
  patterns ≡ₚ patterns' →
  ingestPatterns KEYS root patterns sep
  = populate root (mjoin (omap KEYS patterns)) sep
  ∧ ingestPatterns KEYS root patterns' sep
    = ingestPatterns KEYS root patterns sep.
Proof.
  intros Hp. rewrite !ingestPatterns_populate. split; [done|].
  apply populate_perm; [|apply wf_newNode].
  by rewrite Hp.
Qed.

Lemma main_trie_of_patterns_witness :
  ["x*"; "bad"; "y*"] ≡ₚ ["y*"; "x*"; "bad"]
  ∧ ingestPatterns
      (λ p, if decide (p = "x*") then Some ["x:1"]
            else if decide (p = "y*") then Some ["y:1"; "y:2"] else None)
      root ["x*"; "bad"; "y*"] ":"
    = populate root
        (mjoin (omap
           (λ p, if decide (p = "x*") then Some ["x:1"]
                 else if decide (p = "y*") then Some ["y:1"; "y:2"] else None)
           ["x*"; "bad"; "y*"])) ":"
  ∧ ingestPatterns
      (λ p, if decide (p = "x*") then Some ["x:1"]
            else if decide (p = "y*") then Some ["y:1"; "y:2"] else None)
      root ["y*"; "x*"; "bad"] ":"
    = ingestPatterns
        (λ p, if decide (p = "x*") then Some ["x:1"]
              else if decide (p = "y*") then Some ["y:1"; "y:2"] else None)
        root ["x*"; "bad"; "y*"] ":".
Proof.
  assert (H : ["x*"; "bad"; "y*"] ≡ₚ ["y*"; "x*"; "bad"]).
  { symmetry. apply (Permutation_cons_append ["x*"; "bad"] "y*"). }
  split; [exact H | exact (main_trie_of_patterns _ _ _ ":" H)].
Defined.

(** ** The whole walk *)

Section walk_facts.

Implicit Types (t node n : treeNode) (m : gmap string treeNode).
Implicit Types (path : list string) (part key leading L : string).

Lemma height_child t L c : kids t !! L = Some c → (height c < height t)%nat.
Proof.
  destruct t as [v [m|]]; cbn [kids children default from_option id];
    [|by rewrite lookup_empty].
  intros Hl. cbn [height]. rewrite map_fold_foldr.
  apply elem_of_map_to_list in Hl. revert Hl.
  generalize (map_to_list m). intros l Hl.
  induction l as [|[k d] l IH]; [by apply elem_of_nil in Hl|].
  cbn [foldr uncurry]. apply elem_of_cons in Hl as [[= <- <-]|Hl]; [lia|].
  specialize (IH Hl). lia.
Qed.

(** Induction on a trie, through the children of its nodes. *)
Lemma tree_ind (P : treeNode → Prop) :
  (∀ t, (∀ L c, kids t !! L = Some c → P c) → P t) → ∀ t, P t.
Proof.
  intros Hstep.
  assert (H : ∀ (k : nat) t, (height t < k)%nat → P t).
  { induction k as [|k IH]; intros t Ht; [lia|].
    apply Hstep. intros L c Hc. apply IH.
    pose proof (height_child t L c Hc). lia. }
  intros t. apply (H (S (height t))). lia.
Qed.

Lemma concat_mjoin {A} (ls : list (list A)) : concat ls = mjoin ls.
Proof. induction ls as [|l ls IH]; [done|]. cbn. by rewrite IH. Qed.

Lemma at_child m part c : m !! part = Some c → at_ m part = c.
Proof. unfold at_. by intros ->. Qed.

Lemma mapKeys_child m (i : nat) part :
  mapKeys m !! i = Some part → ∃ c, m !! part = Some c.
Proof.
  intros Hi. apply elem_of_mapKeys, list_elem_of_lookup. by exists i.
Qed.

(** A sum over the children, in the order of [mapKeys]. *)
Lemma map_fold_sum (g : treeNode → nat) m :
  map_fold (λ _ c acc, (g c + acc)%nat) 0%nat m
  = sum_list ((λ part, g (at_ m part)) <$> mapKeys m).
Proof.
  rewrite map_fold_foldr.
  rewrite (mapKeys_perm m), <- list_fmap_compose.
  rewrite (list_fmap_ext _ (λ kc, g kc.2) (map_to_list m)).
  - induction (map_to_list m) as [|[k c] l IH]; [done|].
    cbn. by rewrite IH.
  - intros i [k c] Hi. cbn. f_equal. apply at_child.
    apply elem_of_map_to_list, list_elem_of_lookup. by exists i.
Qed.

Lemma siblings_child node key leading c :
  c ∈ siblings node key leading →
  ∃ part, kids node !! part = Some (c_node c)
        ∧ c_key c = extendKey key [part]
        ∧ c_leading c = leading.
Proof.
  unfold siblings. intros (i & part & -> & Hi)%elem_of_lookup_imap_1.
  destruct (mapKeys_child _ _ _ Hi) as [d Hd].
  exists part. cbn [c_node c_key c_leading]. by rewrite (at_child _ _ _ Hd).
Qed.

Lemma child_sibling node key leading part c :
  kids node !! part = Some c →
  ∃ s, s ∈ siblings node key leading
     ∧ c_node s = c ∧ c_key s = extendKey key [part].
Proof.
  intros Hc.
  assert (part ∈ mapKeys (kids node)) as [i Hi]%list_elem_of_lookup
    by (apply elem_of_mapKeys; by eexists).
  unfold siblings. eexists. split; [eapply elem_of_lookup_imap_2; exact Hi|].
  cbn [c_node c_key]. by rewrite (at_child _ _ _ Hc).
Qed.

Lemma elem_of_plot t key leading c :
  c ∈ plot t key leading
  ↔ ∃ s, s ∈ siblings t key leading
       ∧ (c = s ∨ c ∈ plot (c_node s) (c_key s) (newLeading s)).
Proof.
  rewrite plot_unfold, concat_mjoin, list_elem_of_join. split.
  - intros (l & Hc & (s & -> & Hs)%list_elem_of_fmap).
    exists s. split; [done|]. by apply elem_of_cons in Hc.
  - intros (s & Hs & Hc). eexists. split; [|by apply list_elem_of_fmap_2].
    by apply elem_of_cons.
Qed.

(** Every call of [plotNode] is for a node below the root, with the key
    built along its path. *)
Lemma plot_call_path : ∀ t key leading c,
  c ∈ plot t key leading →
  ∃ path, path ≠ [] ∧ walk path t = Some (c_node c)
        ∧ c_key c = extendKey key path.
Proof.
  intros t. induction t as [t IH] using tree_ind. intros key leading c.
  rewrite elem_of_plot. intros (s & Hs & Hc).
  destruct (siblings_child _ _ _ _ Hs) as (part & Hp & Hk & _).
  destruct Hc as [->|Hc].
  - exists [part]. split; [done|]. split; [|done].
    cbn [walk]. by rewrite Hp.
  - destruct (IH _ _ Hp _ _ _ Hc) as (path & _ & Hw & Hk').
    exists (part :: path). split; [done|]. split.
    + cbn [walk]. by rewrite Hp.
    + by rewrite Hk', Hk.
Qed.

(** Every node below the root gets its call. *)
Lemma path_plot_call path : ∀ t key leading n,
  path ≠ [] → walk path t = Some n →
  ∃ c, c ∈ plot t key leading ∧ c_node c = n ∧ c_key c = extendKey key path.
Proof.
  induction path as [|part rest IH]; intros t key leading n Hne Hn; [done|].
  cbn [walk] in Hn. destruct (kids t !! part) as [d|] eqn:Hd; [|done].
  cbn [mbind option_bind] in Hn.
  destruct (child_sibling t key leading part d Hd) as (s & Hs & Hsn & Hsk).
  destruct rest as [|part' rest'].
  - injection Hn as <-. exists s. split; [|done].
    apply elem_of_plot. exists s. by split; [|left].
  - destruct (IH d (c_key s) (newLeading s) n ltac:(done) Hn)
      as (c & Hc & Hcn & Hck).
    exists c. split; [|split; [done|]].
    + apply elem_of_plot. exists s. split; [done|]. right. by rewrite Hsn.
    + by rewrite Hck, Hsk.
Qed.

Lemma countLeaves_leaf n : size (kids n) = 0%nat → countLeaves n = 0%nat.
Proof.
  destruct n as [v [m|]]; [|done].
  cbn [kids children default from_option id countLeaves].
  intros ->%map_size_empty_iff. apply map_fold_empty.
Qed.

Lemma leafKeys_cons (c : call) (calls : list call) :
  leafKeys (c :: calls)
  = (if decide (size (kids (c_node c)) = 0%nat) then [c_key c] else [])
    ++ leafKeys calls.
Proof. done. Qed.

Lemma length_leafKeys_join (ls : list (list call)) :
  length (leafKeys (mjoin ls)) = sum_list ((length ∘ leafKeys) <$> ls).
Proof.
  induction ls as [|l ls IH]; [done|].
  cbn [mjoin list_join fmap list_fmap compose]. unfold leafKeys at 1.
  rewrite bind_app, length_app.
  change (length (leafKeys l) + length (leafKeys (mjoin ls))
          = sum_list (length (leafKeys l) :: (length ∘ leafKeys <$> ls)))%nat.
  by rewrite IH.
Qed.

Lemma length_plot_calls : ∀ t key leading,
  length (plot t key leading) = countBelow t.
Proof.
  intros t. induction t as [t IH] using tree_ind. intros key leading.
  rewrite plot_unfold, concat_mjoin, length_join, <- list_fmap_compose.
  unfold siblings. rewrite fmap_imap.
  destruct t as [v [m|]]; [|reflexivity].
  cbn [kids children default from_option id countBelow] in *.
  rewrite (map_fold_sum (λ c, S (countBelow c))).
  f_equal. rewrite <- imap_const. apply imap_ext. intros i part Hi.
  destruct (mapKeys_child _ _ _ Hi) as [d Hd].
  cbn [compose c_node c_key const length].
  rewrite (at_child _ _ _ Hd). f_equal. apply (IH _ _ Hd).
Qed.

Lemma length_plot_leaves : ∀ t key leading,
  length (leafKeys (plot t key leading)) = countLeaves t.
Proof.
  intros t. induction t as [t IH] using tree_ind. intros key leading.
  rewrite plot_unfold, concat_mjoin, length_leafKeys_join, <- list_fmap_compose.
  unfold siblings. rewrite fmap_imap.
  destruct t as [v [m|]]; [|reflexivity].
  cbn [kids children default from_option id countLeaves] in *.
  rewrite (map_fold_sum
             (λ c, if decide (size (kids c) = 0%nat) then 1%nat
                   else countLeaves c)).
  f_equal. rewrite <- imap_const. apply imap_ext. intros i part Hi.
  destruct (mapKeys_child _ _ _ Hi) as [d Hd].
  cbn [compose const]. rewrite leafKeys_cons, length_app.
  cbn [c_node c_key]. rewrite (at_child _ _ _ Hd), (IH _ _ Hd).
  destruct (decide (size (kids d) = 0%nat)) as [Hl|Hl]; [|done].
  by rewrite (countLeaves_leaf d Hl).
Qed.

End walk_facts.

(** ** Keys in, keys out *)

Section roundtrip_facts.

Implicit Types (s sep key : string) (path : list string).

Lemma strTake_strDrop (k : nat) s : strTake k s +:+ strDrop k s = s.
Proof.
  revert s. induction k as [|k IH]; intros [|c s]; try done.
  cbn [strTake strDrop].
  change (String c (strTake k s +:+ strDrop k s) = String c s).
  by rewrite IH.
Qed.

Lemma strDrop_add (a b : nat) s : strDrop (a + b) s = strDrop b (strDrop a s).
Proof.
  revert s. induction a as [|a IH]; intros s; [done|].
  destruct s as [|c s]; [by destruct b|]. apply IH.
Qed.

Lemma substring_take_drop (a k : nat) s :
  String.substring a k s = strTake k (strDrop a s).
Proof.
  revert s. induction a as [|a IH]; intros s.
  - cbn [strDrop]. revert s. induction k as [|k IHk]; intros [|c s]; try done.
    cbn [String.substring strTake]. by rewrite IHk.
  - destruct s as [|c s]; [by destruct k|]. apply IH.
Qed.

(** Where [Index] finds the separator, the string is what comes before,
    the separator, and what comes after. *)
Lemma Index_cut s sep (i : nat) :
  strings.Index s sep = Some i →
  s = strTake i s +:+ sep +:+ strDrop (i + String.length sep) s.
Proof.
  intros Hi. apply String.index_correct1 in Hi.
  rewrite substring_take_drop in Hi.
  rewrite strDrop_add.
  rewrite <- Hi at 1.
  by rewrite strTake_strDrop, strTake_strDrop.
Qed.

Lemma genSplit_nonempty (fuel : nat) s sep : strings.genSplit fuel s sep ≠ [].
Proof.
  destruct fuel; [done|]. cbn [strings.genSplit].
  by destruct (strings.Index s sep).
Qed.

Lemma Join_cons x (l : list string) sep :
  l ≠ [] → strings.Join (x :: l) sep = x +:+ sep +:+ strings.Join l sep.
Proof. by destruct l. Qed.

Lemma Join_genSplit sep : ∀ (fuel : nat) s,
  strings.Join (strings.genSplit fuel s sep) sep = s.
Proof.
  induction fuel as [|fuel IH]; intros s; [done|].
  cbn [strings.genSplit].
  destruct (strings.Index s sep) as [i|] eqn:Hi; [|done].
  rewrite Join_cons by apply genSplit_nonempty.
  rewrite IH. symmetry. by apply Index_cut.
Qed.

(** Splitting on a non-empty separator and joining again gives the key
    back. *)
Lemma Join_Split s sep :
  sep ≠ EmptyString → strings.Join (strings.Split s sep) sep = s.
Proof.
  intros Hsep. unfold strings.Split. destruct (decide _); [done|].
  apply Join_genSplit.
Qed.

Lemma Split_nonempty s sep :
  sep ≠ EmptyString → strings.Split s sep ≠ [].
Proof.
  intros Hsep. unfold strings.Split. destruct (decide _); [done|].
  apply genSplit_nonempty.
Qed.

Lemma append_nonempty s t : s ≠ EmptyString → s +:+ t ≠ EmptyString.
Proof. by destruct s. Qed.

(** The key [plot] builds is the join with a colon, as long as no label
    is empty. *)
Lemma extendKey_Join path : ∀ key,
  key ≠ EmptyString → Forall (λ part, part ≠ EmptyString) path →
  extendKey key path = strings.Join (key :: path) ":".
Proof.
  induction path as [|part rest IH]; intros key Hk Hp; [done|].
  apply Forall_cons in Hp as [Hpart Hrest].
  cbn [extendKey foldl]. rewrite decide_False by done.
  fold (extendKey (key +:+ ":" +:+ part) rest).
  rewrite IH by (done || by apply append_nonempty).
  destruct rest as [|part' rest']; [done|].
  rewrite !Join_cons by done. by rewrite !append_assoc.
Qed.

Lemma extendKey_Join_root path :
  path ≠ [] → Forall (λ part, part ≠ EmptyString) path →
  extendKey EmptyString path = strings.Join path ":".
Proof.
  intros Hne Hp. destruct path as [|part rest]; [done|].
  apply Forall_cons in Hp as [Hpart Hrest].
  cbn [extendKey foldl]. rewrite decide_True by done.
  by apply extendKey_Join.
Qed.

End roundtrip_facts.

Section render_facts.

Variable lookup : string → string * Z * fetched.
Variable ansiColor : string → string → string.
Variables wrap turnOnColor : bool.

Lemma queried_app (l1 l2 : list event) :
  queried (l1 ++ l2) = queried l1 ++ queried l2.
Proof. apply omap_app. Qed.


Lemma queried_plotNode node key leading isLast :
  queried (plotNode lookup ansiColor wrap turnOnColor node key leading isLast)
  = if decide (size (kids node) = 0%nat) then [key] else [].
Proof. unfold plotNode. by destruct (decide _). Qed.


Lemma queried_calls (calls : list call) :
  queried (c ← calls;
           plotNode lookup ansiColor wrap turnOnColor
                    (c_node c) (c_key c) (c_leading c) (c_isLast c))
  = leafKeys calls.
Proof.
  induction calls as [|c calls IH]; [done|].
  rewrite bind_cons, queried_app, IH, queried_plotNode. done.
Qed.


Lemma elem_of_leafKeys (calls : list call) key :
  key ∈ leafKeys calls
  ↔ ∃ c, c ∈ calls ∧ size (kids (c_node c)) = 0%nat ∧ c_key c = key.
Proof.
  unfold leafKeys. rewrite list_elem_of_bind. split.
  - intros (c & Hk & Hc). exists c. split; [done|].
    destruct (decide _); [|by apply elem_of_nil in Hk].
    apply list_elem_of_singleton in Hk. done.
  - intros (c & Hc & Hl & <-). exists c. split; [|done].
    rewrite decide_True by done. by apply list_elem_of_singleton.
Qed.

End render_facts.

Section leading_facts.

Lemma append_empty_r (s : string) : s +:+ EmptyString = s.
Proof.
  induction s as [|c s IH]; [done|].
  change (String c (s +:+ EmptyString) = String c s). by rewrite IH.
Qed.

End leading_facts.

(** ** Properties of the whole rendering *)


(** X7.  [plot] calls [plotNode] for the nodes below the one it starts
    from, for all of them and for nothing else, each with the key built
    from the labels of its path. *)
Theorem plot_visits_the_nodes_below (t : treeNode) (key leading : string) :
  (∀ c, c ∈ plot t key leading →
     ∃ path, path ≠ [] ∧ walk path t = Some (c_node c)
           ∧ c_key c = extendKey key path)
  ∧ (∀ path n, path ≠ [] → walk path t = Some n →
       ∃ c, c ∈ plot t key leading ∧ c_node c = n
          ∧ c_key c = extendKey key path).
Proof.
  split.
  - apply plot_call_path.
  - intros path n. apply path_plot_call.
Qed.

(** X8.  With the separator [":"] and keys that have no empty segment, the
    keys a rendering looks up are the ingested keys that are not continued
    by another one: each is looked up under its own name, and a key whose
    segments begin another key is not looked up. *)
Theorem lookups_are_the_maximal_keys
    (lookup : string → string * Z * fetched)
    (ansiColor : string → string → string) (wrap turnOnColor : bool)
    (keys : list string) (t : treeNode) :
  populate root keys ":" = Some t →
  (∀ key, key ∈ keys →
     Forall (λ part, part ≠ EmptyString) (strings.Split key ":")) →
  ∀ k, k ∈ queried (render lookup ansiColor wrap turnOnColor t)
       ↔ k ∈ keys
         ∧ ∀ key' L rest, key' ∈ keys →
             strings.Split key' ":" ≠ strings.Split k ":" ++ L :: rest.
Proof.
  intros E Hne k. unfold render. rewrite queried_calls, elem_of_leafKeys.
  pose proof (walk_populate keys ":" root t) as Hp.
  split.
  - intros (c & Hc & Hleaf & <-).
    destruct (plot_call_path _ _ _ _ Hc) as (path & Hpne & Hw & Hk).
    assert (Hs : is_Some (walk path t)) by by eexists.
    apply (Hp _ (wf_newNode _) E) in Hs as [Hs|(key0 & Hin & [rest0 Hs])].
    { unfold root in Hs. by apply walk_newNode in Hs. }
    pose proof (proj1 (leaf_walk _ _ _ Hw) Hleaf) as Hnone.
    assert (∀ key' L rest, key' ∈ keys →
              strings.Split key' ":" ≠ path ++ L :: rest) as Hmax.
    { intros key' L rest Hin' Hs'.
      assert (is_Some (walk (path ++ [L]) t)) as [n' Hn'].
      { apply (Hp _ (wf_newNode _) E). right. exists key'. split; [done|].
        exists rest. by rewrite Hs', <- app_assoc. }
      by rewrite Hnone in Hn'. }
    destruct rest0 as [|L rest]; [|by destruct (Hmax key0 L rest Hin)].
    rewrite app_nil_r in Hs. subst path.
    rewrite Hk, extendKey_Join_root by (done || by apply Hne).
    rewrite Join_Split by done. by split.
  - intros [Hin Hmax].
    destruct (leaf_iff_maximal keys ":" t k E Hin) as (n & Hn & Hiff).
    destruct (path_plot_call (strings.Split k ":") t EmptyString EmptyString n)
      as (c & Hc & Hcn & Hck); [by apply Split_nonempty | done |].
    exists c. split; [done|]. split.
    + rewrite Hcn. by apply Hiff.
    + rewrite Hck, extendKey_Join_root
        by (by apply Split_nonempty || by apply Hne).
      by apply Join_Split.
Qed.

Lemma lookups_are_the_maximal_keys_witness :
  populate root ["a"; "a:b"; "c"] ":"
  = Some (TreeNode "/"
            (Some {[ "a" := chain "a" ["b"]; "c" := newNode "c" ]}))
  ∧ (∀ key, key ∈ ["a"; "a:b"; "c"] →
       Forall (λ part, part ≠ EmptyString) (strings.Split key ":"))
  ∧ ∀ k, k ∈ queried (render (λ key, ("string", -1, Str key))
                             (λ s _, s) true false
                        (TreeNode "/"
                           (Some {[ "a" := chain "a" ["b"];
                                    "c" := newNode "c" ]})))
         ↔ k ∈ ["a"; "a:b"; "c"]
           ∧ ∀ key' L rest, key' ∈ ["a"; "a:b"; "c"] →
               strings.Split key' ":" ≠ strings.Split k ":" ++ L :: rest.
Proof.
  assert (E : populate root ["a"; "a:b"; "c"] ":"
    = Some (TreeNode "/"
              (Some {[ "a" := chain "a" ["b"]; "c" := newNode "c" ]})))
    by (vm_compute; reflexivity).
  assert (H : ∀ key, key ∈ ["a"; "a:b"; "c"] →
            Forall (λ part, part ≠ EmptyString) (strings.Split key ":")).
  { intros key Hin. repeat (apply elem_of_cons in Hin as [->|Hin]);
      [| | |by apply elem_of_nil in Hin];
      vm_compute; repeat constructor; discriminate. }
  split; [exact E|]. split; [exact H|].
  exact (lookups_are_the_maximal_keys _ _ _ _ _ _ E H).
Defined.

(** X9.  The leading of every line is the leading [plot] started with,
    followed by one rail of four columns for every node above the node of
    the line: the indentation is the depth. *)
Theorem leading_is_one_rail_per_level
    (t : treeNode) (key leading : string) (c : call) :
  c ∈ plot t key leading →
  ∃ path flags, walk path t = Some (c_node c)
              ∧ length path = S (length flags)
              ∧ c_leading c = leading +:+ rails flags.
Proof.
  revert key leading c. induction t as [t IH] using tree_ind.
  intros key leading c. rewrite elem_of_plot. intros (s & Hs & Hc).
  destruct (siblings_child _ _ _ _ Hs) as (part & Hp & _ & Hl).
  destruct Hc as [->|Hc].
  - exists [part], []. split_and!; [|done|].
    + cbn [walk]. by rewrite Hp.
    + cbn [rails foldr]. by rewrite append_empty_r.
  - destruct (IH _ _ Hp _ _ _ Hc) as (path & flags & Hw & Hlen & Hlead).
    exists (part :: path), (c_isLast s :: flags). split_and!.
    + cbn [walk]. by rewrite Hp.
    + cbn [length]. by rewrite Hlen.
    + rewrite Hlead. unfold newLeading. rewrite Hl. cbn [rails foldr].
      destruct (c_isLast s); by rewrite append_assoc.
Qed.

Lemma leading_is_one_rail_per_level_witness :
  Call (newNode "b") "a:b" "    " true
    ∈ plot (chain "/" ["a"; "b"]) EmptyString EmptyString
  ∧ ∃ path flags,
      walk path (chain "/" ["a"; "b"])
      = Some (c_node (Call (newNode "b") "a:b" "    " true))
      ∧ length path = S (length flags)
      ∧ c_leading (Call (newNode "b") "a:b" "    " true)
        = EmptyString +:+ rails flags.
Proof.
  assert (H : Call (newNode "b") "a:b" "    " true
              ∈ plot (chain "/" ["a"; "b"]) EmptyString EmptyString).
  { assert (E : plot (chain "/" ["a"; "b"]) EmptyString EmptyString
                = [Call (chain "a" ["b"]) "a" EmptyString true;
                   Call (newNode "b") "a:b" "    " true])
      by (vm_compute; reflexivity).
    rewrite E. apply elem_of_cons. right. apply elem_of_cons. by left. }
  split; [exact H | exact (leading_is_one_rail_per_level _ _ _ _ H)].
Defined.

(** ** More on the formatter *)

Section format_more.

Implicit Types (bytes bs : list Z) (b : Z) (s : string).

Lemma byteOf_asciiOf b : 0 ≤ b < 256 → byteOf (asciiOf b) = b.
Proof.
  intros Hb. unfold byteOf, asciiOf.
  rewrite N_ascii_embedding by lia. lia.
Qed.

Lemma bytesOf_stringOf bs :
  Forall (λ b, 0 ≤ b < 256) bs → bytesOf (stringOf bs) = bs.
Proof.
  induction 1 as [|b bs Hb _ IH]; [done|].
  cbn [stringOf bytesOf]. by rewrite byteOf_asciiOf, IH.
Qed.

Lemma length_stringOf bs : String.length (stringOf bs) = length bs.
Proof. induction bs as [|b bs IH]; [done|]. cbn. by rewrite IH. Qed.

Lemma length_bytesOf s : length (bytesOf s) = String.length s.
Proof. induction s as [|c s IH]; [done|]. cbn. by rewrite IH. Qed.

(** A sequence without invisible bytes is not binary, whatever its
    length. *)
Lemma isBinary_all_visible bytes :
  Forall (λ b, visible b = true) bytes → isBinary bytes = false.
Proof.
  intros Hv. unfold isBinary. destruct (decide _); [done|].
  assert (countInvisible bytes = 0) as ->.
  { rewrite countInvisible_filter.
    rewrite (filter_none (λ b, visible b = false)); [done|].
    eapply Forall_impl; [exact Hv|]. intros b Hb. cbn beta in Hb.
    by rewrite Hb. }
  by rewrite geb_zero_div.
Qed.

Lemma bitChars_digits char :
  Forall (λ b, b = byteOf "0" ∨ b = byteOf "1") (bitChars char).
Proof.
  unfold bitChars. apply Forall_fmap, Forall_forall. intros i _.
  unfold compose. destruct (Z.testbit char (Z.of_nat i)); auto.
Qed.

Lemma bitset_digits bytes :
  Forall (λ b, b = byteOf "0" ∨ b = byteOf "1") (bitset bytes).
Proof.
  rewrite bitset_bind. induction bytes as [|char rest IH]; [done|].
  rewrite bind_cons. apply Forall_app. split; [apply bitChars_digits | done].
Qed.

Lemma isBinary_bitset bytes : isBinary (bitset bytes) = false.
Proof.
  apply isBinary_all_visible.
  eapply Forall_impl; [apply bitset_digits|].
  intros b [-> | ->]; reflexivity.
Qed.

Lemma countInvisible_perm bytes bytes' :
  bytes ≡ₚ bytes' → countInvisible bytes = countInvisible bytes'.
Proof. intros Hp. rewrite !countInvisible_filter. by rewrite Hp. Qed.

End format_more.

(** X10.  The bit string of [bitset] is made of the characters [0] and [1]
    only, and [isBinary] never takes it for binary: the fallback encoding
    is always text. *)
Theorem bitset_output_is_text (bytes : list Z) :
  Forall (λ b, b = byteOf "0" ∨ b = byteOf "1") (bitset bytes)
  ∧ isBinary (bitset bytes) = false.
Proof. split; [apply bitset_digits | apply isBinary_bitset]. Qed.

(** X11.  Formatting a string is idempotent: what [prettyPrint] returns for
    a string is never binary for [isBinary], and formatting it again, with
    any prefix and flags, returns it unchanged.  A binary string becomes
    eight characters for each byte. *)
Theorem prettyPrint_string_idempotent
    (s prefix prefix' : string) (wrap isLast wrap' isLast' : bool) :
  let out := prettyPrint (Str s) prefix wrap isLast in
  isBinary (bytesOf out) = false
  ∧ prettyPrint (Str out) prefix' wrap' isLast' = out
  ∧ (isBinary (bytesOf s) = true →
     String.length out = (8 * String.length s)%nat).
Proof.
  intros out. subst out. unfold prettyPrint.
  destruct (isBinary (bytesOf s)) eqn:E.
  - assert (Hb : bytesOf (stringOf (bitset (bytesOf s))) = bitset (bytesOf s)).
    { apply bytesOf_stringOf.
      eapply Forall_impl; [apply bitset_digits|].
      intros b [-> | ->]; vm_compute; (split; [discriminate | reflexivity]). }
    rewrite Hb, isBinary_bitset. split_and!; [done..|].
    intros _. rewrite length_stringOf, bitset_bind, length_bind_bitChars.
    by rewrite length_bytesOf.
  - rewrite stringOf_bytesOf, E, stringOf_bytesOf. done.
Qed.

(** X12.  [isBinary] looks at no position: two sequences with the same
    bytes in another order get the same answer. *)
Theorem isBinary_order_independent (bytes bytes' : list Z) :
  bytes ≡ₚ bytes' → isBinary bytes = isBinary bytes'.
Proof.
  intros Hp. unfold isBinary.
  by rewrite (countInvisible_perm _ _ Hp), (Permutation_length Hp).
Qed.

Lemma isBinary_order_independent_witness :
  [0; 65; 66] ≡ₚ [65; 66; 0] ∧ isBinary [0; 65; 66] = isBinary [65; 66; 0].
Proof.
  assert (H : [0; 65; 66] ≡ₚ [65; 66; 0])
    by apply (Permutation_cons_append [65; 66] 0).
  split; [exact H | exact (isBinary_order_independent _ _ H)].
Defined.

(** ** The commands sent to the store *)

Section query_facts.

Variable replyStr : list string → string.
Variable replyInt64 : list string → Z.
Variable replyList : list string → option (list string).
Variable replyHash : list string → option (gmap string string).
Variable onlyKeys : bool.

Lemma query_shape key :
  ∃ more, (query replyStr replyInt64 replyList replyHash onlyKeys key).1
          = [["type"; key]; ["ttl"; key]] ++ more
    ∧ (more = []
       ∨ ∃ name args, more = [name :: key :: args]
                      ∧ name ∈ ["get"; "lrange"; "smembers"; "hgetall"; "zrange"]).
Proof.
  unfold query. destruct onlyKeys; [exists []; by split; [|left]|].
  repeat case_decide;
    (eexists; split; [reflexivity|]; cbn [fst];
     first [by left | right; eexists _, _; split; [reflexivity|];
                      rewrite !elem_of_cons; tauto]).
Qed.

Lemma elem_of_commands (events : list event) cmd :
  cmd ∈ commands replyStr replyInt64 replyList replyHash onlyKeys events
  ↔ ∃ key, key ∈ queried events
         ∧ cmd ∈ (query replyStr replyInt64 replyList replyHash onlyKeys key).1.
Proof.
  unfold commands. rewrite list_elem_of_bind.
  split; intros (key & H1 & H2); by exists key.
Qed.

Lemma length_commands_const (keys : list string) (k : nat) :
  (∀ key, length (query replyStr replyInt64 replyList replyHash onlyKeys key).1
          = k) →
  length (key ← keys;
          (query replyStr replyInt64 replyList replyHash onlyKeys key).1)
  = (k * length keys)%nat.
Proof.
  intros Hk. induction keys as [|key keys IH]; [cbn; lia|].
  rewrite bind_cons, length_app, IH, Hk. cbn [length]. lia.
Qed.

End query_facts.

(** X13.  What [query] sends for a key: first [type] and [ttl], then at
    most one command that fetches the value.  That third command is sent
    exactly when [onlyKeys] is off and the type is one of the five the
    program knows; without it the value formats to the empty text. *)
Theorem query_type_ttl_then_value
    (replyStr : list string → string) (replyInt64 : list string → Z)
    (replyList : list string → option (list string))
    (replyHash : list string → option (gmap string string))
    (onlyKeys : bool) (key prefix : string) (wrap isLast : bool) :
  let q := query replyStr replyInt64 replyList replyHash onlyKeys key in
  let rtype := replyStr ["type"; key] in
  q.2.1 = (rtype, replyInt64 ["ttl"; key])
  ∧ take 2 q.1 = [["type"; key]; ["ttl"; key]]
  ∧ (length q.1 = 2%nat ∨ length q.1 = 3%nat)
  ∧ (length q.1 = 3%nat
     ↔ onlyKeys = false ∧ rtype ∈ ["string"; "list"; "set"; "hash"; "zset"])
  ∧ (length q.1 = 2%nat → prettyPrint q.2.2 prefix wrap isLast = EmptyString).
Proof.
  intros q rtype. subst q. unfold query. fold rtype.
  destruct onlyKeys.
  { cbn [fst snd length take]. split_and!; [done|done|by left| |done].
    split; [done | by intros [? _]]. }
  repeat case_decide; cbn [fst snd length take];
    (split_and!;
     [done | done | by (left + right) | | done]);
    (split; [intros ?; try done|intros [_ Hin]; try done]);
    try (split; [done|]; rewrite !elem_of_cons; tauto).
  exfalso. revert Hin. rewrite !elem_of_cons, elem_of_nil. tauto.
Qed.

(** X14.  A rendering only reads the store: every command it sends is one
    of [type], [ttl], [get], [lrange], [smembers], [hgetall] and [zrange],
    and its first argument is the key of a leaf that [plot] visits. *)
Theorem render_sends_only_reads
    (replyStr : list string → string) (replyInt64 : list string → Z)
    (replyList : list string → option (list string))
    (replyHash : list string → option (gmap string string))
    (onlyKeys : bool)
    (ansiColor : string → string → string) (wrap turnOnColor : bool)
    (t : treeNode) (cmd : list string) :
  let lookup key :=
    (query replyStr replyInt64 replyList replyHash onlyKeys key).2 in
  cmd ∈ commands replyStr replyInt64 replyList replyHash onlyKeys
          (render lookup ansiColor wrap turnOnColor t) →
  ∃ name key args,
    cmd = name :: key :: args
    ∧ name ∈ readCommands
    ∧ key ∈ leafKeys (plot t EmptyString EmptyString).
Proof.
  intros lookup (key & Hk & Hc)%elem_of_commands.
  unfold render in Hk. rewrite queried_calls in Hk.
  destruct (query_shape replyStr replyInt64 replyList replyHash onlyKeys key)
    as (more & E & Hmore).
  rewrite E in Hc. unfold readCommands.
  apply elem_of_app in Hc as [Hc|Hc].
  - apply elem_of_cons in Hc as [->|Hc].
    { eexists _, _, _. split; [reflexivity|]. split; [|done].
      rewrite !elem_of_cons; tauto. }
    apply list_elem_of_singleton in Hc as ->.
    eexists _, _, _. split; [reflexivity|]. split; [|done].
    rewrite !elem_of_cons; tauto.
  - destruct Hmore as [->|(name & args & -> & Hn)];
      [by apply elem_of_nil in Hc|].
    apply list_elem_of_singleton in Hc as ->.
    eexists _, _, _. split; [reflexivity|]. split; [|done].
    revert Hn. rewrite !elem_of_cons, !elem_of_nil. tauto.
Qed.

Lemma render_sends_only_reads_witness :
  ["get"; "a:b"]
    ∈ commands (λ cmd, if decide (cmd = ["type"; "a:b"]) then "string" else "v")
               (λ _, -1) (λ _, None) (λ _, None) false
        (render (λ key,
                   (query (λ cmd, if decide (cmd = ["type"; "a:b"])
                                  then "string" else "v")
                          (λ _, -1) (λ _, None) (λ _, None) false key).2)
                (λ s _, s) true false (chain "/" ["a"; "b"]))
  ∧ ∃ name key args,
      ["get"; "a:b"] = name :: key :: args
      ∧ name ∈ readCommands
      ∧ key ∈ leafKeys (plot (chain "/" ["a"; "b"]) EmptyString EmptyString).
Proof.
  assert (H : ["get"; "a:b"]
    ∈ commands (λ cmd, if decide (cmd = ["type"; "a:b"]) then "string" else "v")
               (λ _, -1) (λ _, None) (λ _, None) false
        (render (λ key,
                   (query (λ cmd, if decide (cmd = ["type"; "a:b"])
                                  then "string" else "v")
                          (λ _, -1) (λ _, None) (λ _, None) false key).2)
                (λ s _, s) true false (chain "/" ["a"; "b"]))).
  { vm_compute. do 2 apply list_elem_of_further. apply list_elem_of_here. }
  split; [exact H|].
  exact (render_sends_only_reads _ _ _ _ _ _ _ _ _ _ H).
Defined.

(** X15.  In the only-keys mode a rendering sends two commands for each
    leaf, [type] and [ttl], and no command that fetches a value; the value
    field of every annotation is empty. *)
Theorem only_keys_sends_type_and_ttl
    (replyStr : list string → string) (replyInt64 : list string → Z)
    (replyList : list string → option (list string))
    (replyHash : list string → option (gmap string string))
    (ansiColor : string → string → string) (wrap turnOnColor : bool)
    (t : treeNode) :
  let lookup key :=
    (query replyStr replyInt64 replyList replyHash true key).2 in
  let sent := commands replyStr replyInt64 replyList replyHash true
                (render lookup ansiColor wrap turnOnColor t) in
  length sent = (2 * countLeaves t)%nat
  ∧ Forall (λ cmd, ∃ key, cmd = ["type"; key] ∨ cmd = ["ttl"; key]) sent
  ∧ ∀ key leading isLast,
      prettyPrint (lookup key).2 leading wrap isLast = EmptyString.
Proof.
  intros lookup sent. subst sent. split_and!.
  - unfold commands, render. rewrite queried_calls.
    rewrite (length_commands_const _ _ _ _ _ _ 2%nat) by done.
    by rewrite length_plot_leaves.
  - apply Forall_forall. intros cmd (key & _ & Hc)%elem_of_commands.
    cbn [query fst] in Hc. exists key.
    apply elem_of_cons in Hc as [->|Hc]; [by left|].
    apply list_elem_of_singleton in Hc as ->. by right.
  - done.
Qed.

(** ** No key is looked up twice *)

Section once_facts.

Implicit Types (t : treeNode) (key leading part : string) (c s : call).

Lemma append_cancel_l (a x y : string) : a +:+ x = a +:+ y → x = y.
Proof.
  induction a as [|ch a IH]; [done|].
  change (String ch (a +:+ x) = String ch (a +:+ y) → x = y).
  intros [= H]. by apply IH.
Qed.

Lemma extendKey_single_inj key (p q : string) :
  extendKey key [p] = extendKey key [q] → p = q.
Proof.
  cbn [extendKey foldl]. destruct (decide _); [done|].
  intros H. by do 2 apply append_cancel_l in H.
Qed.

Lemma extendKey_cons key part (rest : list string) :
  extendKey key (part :: rest) = extendKey (extendKey key [part]) rest.
Proof. done. Qed.

(** A sibling is the call for one label, at the position of that label in
    [mapKeys]. *)
Lemma siblings_inv t key leading s :
  s ∈ siblings t key leading →
  ∃ (i : nat) part,
    mapKeys (kids t) !! i = Some part
    ∧ siblings t key leading !! i = Some s
    ∧ kids t !! part = Some (c_node s)
    ∧ c_key s = extendKey key [part].
Proof.
  unfold siblings. intros (i & part & -> & Hi)%elem_of_lookup_imap_1.
  destruct (mapKeys_child _ _ _ Hi) as [d Hd].
  exists i, part. split; [done|]. split.
  - by rewrite list_lookup_imap, Hi.
  - cbn [c_node c_key]. by rewrite (at_child _ _ _ Hd).
Qed.

Lemma block_call_path t key leading s part c :
  kids t !! part = Some (c_node s) →
  c_key s = extendKey key [part] →
  c ∈ s :: plot (c_node s) (c_key s) leading →
  ∃ rest, walk (part :: rest) t = Some (c_node c)
        ∧ c_key c = extendKey key (part :: rest).
Proof.
  intros Hp Hk [->|Hc]%elem_of_cons.
  - exists []. cbn [walk]. by rewrite Hp.
  - destruct (plot_call_path _ _ _ _ Hc) as (path & _ & Hw & Hk').
    exists path. cbn [walk]. rewrite Hp. split; [done|].
    by rewrite extendKey_cons, <- Hk.
Qed.

Lemma leafKeys_join (ls : list (list call)) :
  leafKeys (mjoin ls) = ls ≫= leafKeys.
Proof.
  induction ls as [|l ls IH]; [done|].
  cbn [mjoin list_join]. unfold leafKeys at 1. rewrite bind_app.
  rewrite bind_cons. f_equal. exact IH.
Qed.

Lemma plot_leaf t key leading :
  size (kids t) = 0%nat → plot t key leading = [].
Proof.
  intros Hl. apply length_zero_iff_nil. rewrite length_plot_calls.
  destruct t as [v [m|]]; [|done].
  cbn [kids children default from_option id countBelow] in *.
  apply map_size_empty_iff in Hl as ->. apply map_fold_empty.
Qed.

(** When the keys of the leaves tell their paths apart, the keys that
    [plot] hands to [query] are all different. *)
Lemma NoDup_leafKeys_plot : ∀ t key leading,
  (∀ p q n m, p ≠ [] → q ≠ [] →
     walk p t = Some n → walk q t = Some m →
     size (kids n) = 0%nat → size (kids m) = 0%nat →
     extendKey key p = extendKey key q → p = q) →
  NoDup (leafKeys (plot t key leading)).
Proof.
  intros t. induction t as [t IH] using tree_ind. intros key leading Hinj.
  rewrite plot_unfold, concat_mjoin, leafKeys_join, list_fmap_bind.
  apply NoDup_bind.
  - intros s1 s2 y Hs1 Hs2 Hy1 Hy2. cbn [compose] in Hy1, Hy2.
    apply elem_of_leafKeys in Hy1 as (c1 & Hc1 & Hl1 & Hk1).
    apply elem_of_leafKeys in Hy2 as (c2 & Hc2 & Hl2 & Hk2).
    destruct (siblings_inv _ _ _ _ Hs1) as (i1 & p1 & Hi1 & Hg1 & Hn1 & Hkey1).
    destruct (siblings_inv _ _ _ _ Hs2) as (i2 & p2 & Hi2 & Hg2 & Hn2 & Hkey2).
    destruct (block_call_path _ _ _ _ _ _ Hn1 Hkey1 Hc1) as (r1 & Hw1 & He1).
    destruct (block_call_path _ _ _ _ _ _ Hn2 Hkey2 Hc2) as (r2 & Hw2 & He2).
    assert (p1 :: r1 = p2 :: r2) as [= -> _].
    { apply (Hinj (p1 :: r1) (p2 :: r2) (c_node c1) (c_node c2)); try done.
      by rewrite <- He1, <- He2, Hk1, Hk2. }
    assert (i1 = i2) as ->
      by (eapply NoDup_lookup; [apply mapKeys_NoDup|done..]).
    rewrite Hg1 in Hg2. by injection Hg2.
  - intros s Hs. cbn [compose]. rewrite leafKeys_cons.
    destruct (siblings_inv _ _ _ _ Hs) as (i & part & Hi & _ & Hn & Hkey).
    destruct (decide (size (kids (c_node s)) = 0%nat)) as [Hl|Hl].
    + rewrite plot_leaf by done. apply NoDup_singleton.
    + cbn [app]. apply (IH _ _ Hn). intros p q n m Hp Hq Hwp Hwq Hln Hlm He.
      assert (part :: p = part :: q) as [= ->]; [|done].
      apply (Hinj (part :: p) (part :: q) n m); [done | done | | | done.. |].
      * cbn [walk]. by rewrite Hn.
      * cbn [walk]. by rewrite Hn.
      * by rewrite (extendKey_cons key part p), (extendKey_cons key part q),
                   <- Hkey.
  - apply NoDup_alt. intros i j s Hi Hj.
    unfold siblings in Hi, Hj. rewrite list_lookup_imap in Hi, Hj.
    destruct (mapKeys (kids t) !! i) as [pi|] eqn:Ei; [|done].
    destruct (mapKeys (kids t) !! j) as [pj|] eqn:Ej; [|done].
    cbn [fmap option_fmap option_map] in Hi, Hj.
    injection Hi as <-. injection Hj as _ Hk _.
    assert (pj = pi) as -> by (by apply (extendKey_single_inj key)).
    eapply NoDup_lookup; [apply mapKeys_NoDup|done..].
Qed.

(** Below a root filled with keys that have no empty segment, split at
    the colon, the path of a leaf is the split of an ingested key, and
    [plot] builds that key for it. *)
Lemma leaf_path_key (keys : list string) t (p : list string) n :
  populate root keys ":" = Some t →
  (∀ key, key ∈ keys →
     Forall (λ part, part ≠ EmptyString) (strings.Split key ":")) →
  p ≠ [] → walk p t = Some n → size (kids n) = 0%nat →
  ∃ k, k ∈ keys ∧ p = strings.Split k ":" ∧ extendKey EmptyString p = k.
Proof.
  intros E Hne Hp Hw Hleaf.
  pose proof (walk_populate keys ":" root t) as Hpop.
  assert (Hs : is_Some (walk p t)) by by eexists.
  apply (Hpop _ (wf_newNode _) E) in Hs as [Hs|(k & Hin & [rest Hs])].
  { unfold root in Hs. by apply walk_newNode in Hs. }
  pose proof (proj1 (leaf_walk _ _ _ Hw) Hleaf) as Hnone.
  destruct rest as [|L rest].
  - rewrite app_nil_r in Hs. subst p. exists k. split; [done|]. split; [done|].
    rewrite extendKey_Join_root by (done || by apply Hne).
    by apply Join_Split.
  - assert (is_Some (walk (p ++ [L]) t)) as [n' Hn'].
    { apply (Hpop _ (wf_newNode _) E). right. exists k. split; [done|].
      exists rest. by rewrite Hs, <- app_assoc. }
    by rewrite Hnone in Hn'.
Qed.

End once_facts.

(** X16.  With the separator [":"] and keys that have no empty segment, a
    rendering looks no key up twice, even when a key is ingested several
    times. *)
Theorem no_key_looked_up_twice
    (lookup : string → string * Z * fetched)
    (ansiColor : string → string → string) (wrap turnOnColor : bool)
    (keys : list string) (t : treeNode) :
  populate root keys ":" = Some t →
  (∀ key, key ∈ keys →
     Forall (λ part, part ≠ EmptyString) (strings.Split key ":")) →
  NoDup (queried (render lookup ansiColor wrap turnOnColor t)).
Proof.
  intros E Hne. unfold render. rewrite queried_calls.
  apply NoDup_leafKeys_plot. intros p q n m Hp Hq Hwp Hwq Hln Hlm He.
  destruct (leaf_path_key keys t p n E Hne Hp Hwp Hln) as (k1 & _ & -> & E1).
  destruct (leaf_path_key keys t q m E Hne Hq Hwq Hlm) as (k2 & _ & -> & E2).
  by rewrite <- E1, <- E2, He.
Qed.

Lemma no_key_looked_up_twice_witness :
  populate root ["a:b"; "c"; "a:b"; "a"] ":"
  = Some (TreeNode "/"
            (Some {[ "a" := chain "a" ["b"]; "c" := newNode "c" ]}))
  ∧ (∀ key, key ∈ ["a:b"; "c"; "a:b"; "a"] →
       Forall (λ part, part ≠ EmptyString) (strings.Split key ":"))
  ∧ NoDup (queried (render (λ key, ("string", -1, Str key))
                           (λ s _, s) true false
                      (TreeNode "/"
                         (Some {[ "a" := chain "a" ["b"];
                                  "c" := newNode "c" ]})))).
Proof.
  assert (E : populate root ["a:b"; "c"; "a:b"; "a"] ":"
    = Some (TreeNode "/"
              (Some {[ "a" := chain "a" ["b"]; "c" := newNode "c" ]})))
    by (vm_compute; reflexivity).
  assert (H : ∀ key, key ∈ ["a:b"; "c"; "a:b"; "a"] →
            Forall (λ part, part ≠ EmptyString) (strings.Split key ":")).
  { intros key Hin. repeat (apply elem_of_cons in Hin as [->|Hin]);
      [| | | |by apply elem_of_nil in Hin];
      vm_compute; repeat constructor; discriminate. }
  split; [exact E|]. split; [exact H|].
  exact (no_key_looked_up_twice _ _ _ _ _ _ E H).
Defined.

(** ** The size of the output *)

Section size_facts.

Implicit Types (t c : treeNode) (m : gmap string treeNode).
Implicit Types (part sep : string) (parts keys : list string).












End size_facts.



